(** * The XLSX rebuilder: [createXLSXFromDir]

    A shallow embedding of the directory-to-archive packer of this
    repository (the [main] package that imports [archive/zip]) and the
    properties its description states about it.

    The Go function talks to the operating system and to the
    [archive/zip] writer.  Both are modelled here:

    - the source tree is an inductive [node]: regular files with their
      bytes, directories with their listing (in on-disk order, which the
      program must not depend on), and names that cannot be stat-ed;
      files and directories carry the I/O faults a run can meet;
    - a path handed to the callback is the root [dirPath] together with
      the list of names below it, which is what [filepath.Join] builds
      and what [filepath.Rel] takes apart again;
    - the archive is the ordered list of entries written so far, plus a
      flag telling whether the central directory was flushed;
    - [defer] is a stack of pending closes that [func] runs when the
      body returns, last registered first.

    Scope of the model: the output path lies outside the source tree,
    the tree has no symbolic links, nothing else changes the tree
    while the program runs, and closing a handle does not fail (the
    program discards what its deferred [Close] calls return).  Which
    archive writes fail is a matter of the entry's name. *)

From Stdlib Require Import List String Ascii Bool Strings.Byte.
From Stdlib Require Import Permutation OrdersEx RelationClasses.
Import ListNotations.
Local Open Scope string_scope.
Local Open Scope list_scope.

Set Warnings "-register-all".

(** ** Paths ([path/filepath]) *)

Module Filepath.

(** [os.IsPathSeparator]: the host separator, and [/] everywhere. *)
Definition IsPathSeparator (Separator c : ascii) : bool :=
  Ascii.eqb c Separator || Ascii.eqb c "/".

(** [strings.ReplaceAll path (string Separator) "/"]. *)
Fixpoint ReplaceAll (old new : ascii) (s : string) : string :=
  match s with
  | EmptyString => EmptyString
  | String c r =>
      String (if Ascii.eqb c old then new else c) (ReplaceAll old new r)
  end.

(** [filepath.ToSlash]. *)
Definition ToSlash (Separator : ascii) (path : string) : string :=
  if Ascii.eqb Separator "/" then path
  else ReplaceAll Separator "/" path.

(** The last element of a string path: the characters after the last
    separator, once trailing separators are dropped. *)
Fixpoint strip_leading (Separator : ascii) (l : list ascii) : list ascii :=
  match l with
  | c :: r => if IsPathSeparator Separator c then strip_leading Separator r else l
  | [] => []
  end.

Fixpoint take_element (Separator : ascii) (l : list ascii) : list ascii :=
  match l with
  | c :: r => if IsPathSeparator Separator c then [] else c :: take_element Separator r
  | [] => []
  end.

(** [filepath.Base] on a string (no volume names). *)
Definition BaseString (Separator : ascii) (path : string) : string :=
  match path with
  | EmptyString => "."
  | _ =>
      let rev_path := rev (list_ascii_of_string path) in
      match rev (take_element Separator (strip_leading Separator rev_path)) with
      | [] => String Separator EmptyString
      | elt => string_of_list_ascii elt
      end
  end.

(** A path produced by the walk: the root it was started on and the
    names joined to it, outermost first. *)
Record t := Path { root : string; elems : list string }.

(** [filepath.Join path name]. *)
Definition Join (p : t) (name : string) : t :=
  Path (root p) (elems p ++ [name]).

(** [filepath.Base]: the last name, or the base of the root. *)
Definition Base (Separator : ascii) (p : t) : string :=
  match elems p with
  | [] => BaseString Separator (root p)
  | e :: r => last r e
  end.

(** [filepath.Rel dirPath path] for a path below [dirPath]: the names
    joined with the host separator, [.] for the root itself. *)
Definition Rel (Separator : ascii) (p : t) : string :=
  match elems p with
  | [] => "."
  | _ => String.concat (String Separator EmptyString) (elems p)
  end.

End Filepath.

(** ** The source tree *)

Definition bytes := list byte.

(** What can go wrong with a regular file. *)
Inductive fault := Healthy | OpenFails | ReadFails.

(** What a name designates: a regular file with its bytes, a directory
    with its listing (and whether it can be listed), or something the
    system refuses to stat for a reason other than non-existence. *)
Inductive node :=
| File (data : bytes) (flt : fault)
| Dir (listable : bool) (listing : list (string * node))
| Inaccessible.

Definition IsDir (n : node) : bool :=
  match n with Dir _ _ => true | _ => false end.

(** The first entry of a listing with the given name. *)
Fixpoint child (name : string) (listing : list (string * node)) : option node :=
  match listing with
  | [] => None
  | (k, n) :: r => if String.eqb k name then Some n else child name r
  end.

(** What a list of names below a node designates. *)
Fixpoint resolve (n : node) (names : list string) : option node :=
  match names with
  | [] => Some n
  | k :: r =>
      match n with
      | Dir _ listing =>
          match child k listing with
          | Some c => resolve c r
          | None => None
          end
      | _ => None
      end
  end.

(** ** The archive ([archive/zip]) *)

Inductive Method := Store | Deflate.

Record entry := Entry { Name : string; Meth : Method; Data : bytes }.

Record zipfile := Zip { entries : list entry; finalized : bool }.

(** ** Errors and results *)

Inductive oserr := ENOENT | EOTHER.

Definition IsNotExist (err : option oserr) : bool :=
  match err with Some ENOENT => true | _ => false end.

(** Errors returned by the walk callback. *)
Inductive walkerr :=
| WalkIO (path : Filepath.t)          (* the error the walk itself passed in *)
| CreateEntryFailed (relPath : string)
| OpenFailed (path : Filepath.t)
| CopyFailed (relPath : string).

Inductive error :=
| NotFound (dirPath : string)
| NotADirectory (dirPath : string)
| CreateOutputFailed
| MimetypeHeaderFailed
| MimetypeOpenFailed
| MimetypeCopyFailed
| WalkFailed (dirPath : string) (cause : walkerr).

(** How a call of [createXLSXFromDir] ends. *)
Inductive result :=
| Nil                      (* returned nil *)
| Err (e : error)          (* returned an error *)
| NilDereference.          (* panicked *)

(** ** The machine state *)

Inductive handle :=
| OutputFile
| ZipWriter
| SourceFile (path : Filepath.t).

Inductive message :=
| WarnNoContentTypes (dirPath : string)
| Rebuilding (dirPath : string)
| AddingMimetype
| WarnNoMimetype
| Adding (relPath : string)
| Success (name : string).

Record state := State {
  output : option zipfile;      (* the file at xlsxPath, if there is one *)
  opened : list handle;         (* handles that are open *)
  deferred : list handle;       (* closes deferred by the running function *)
  stdout : list message         (* what was printed, oldest first *)
}.

(** The host: its separator, what is at [dirPath] ([None] when the path
    does not exist, [Some Inaccessible] when its stat fails otherwise),
    and which writes fail. *)
Record env := Env {
  Separator : ascii;
  source : option node;
  create_fails : bool;                 (* os.Create xlsxPath fails *)
  header_fails : string -> bool;       (* creating the entry of that name fails *)
  write_fails : string -> bool         (* writing into the entry of that name fails *)
}.

(** ** A small monad for Go function bodies

    A statement either falls through to the next one or returns from
    the enclosing function.  A panic unwinds the function like a return
    does (deferred calls run), so it is a return with a result of its
    own. *)

Inductive step (R A : Type) :=
| Next (a : A)
| Return (r : R).
Arguments Next {R A} a.
Arguments Return {R A} r.

Definition M (R A : Type) := state -> step R A * state.

Definition bind {R A B} (c : M R A) (k : A -> M R B) : M R B :=
  fun s =>
    match c s with
    | (Next a, s1) => k a s1
    | (Return r, s1) => (Return r, s1)
    end.

Definition pure {R A} (a : A) : M R A := fun s => (Next a, s).
Definition return_ {R A} (r : R) : M R A := fun s => (Return r, s).

(** Calling a function that runs to its end. *)
Definition call {R A} (f : state -> A * state) : M R A :=
  fun s => let '(a, s1) := f s in (Next a, s1).

Declare Scope go_scope.
Delimit Scope go_scope with go.
Notation "x <- c ;; k" := (bind c (fun x => k))
  (at level 61, c at next level, right associativity) : go_scope.
Notation "' p <- c ;; k" := (bind c (fun x => match x with p => k end))
  (at level 61, p pattern, c at next level, right associativity) : go_scope.
Notation "c ;; k" := (bind c (fun _ => k))
  (at level 61, right associativity) : go_scope.

(** *** Handles and [defer] *)

Definition handle_eq_dec (a b : handle) : {a = b} + {a <> b}.
Proof.
  decide equality.
  destruct path as [r1 e1], path0 as [r2 e2].
  destruct (string_dec r1 r2) as [-> | ne].
  - destruct (list_eq_dec string_dec e1 e2) as [-> | ne].
    + now left.
    + right; congruence.
  - right; congruence.
Defined.

Definition is_open (h : handle) (s : state) : bool :=
  if in_dec handle_eq_dec h (opened s) then true else false.

Definition set_output (o : option zipfile) (s : state) : state :=
  State o (opened s) (deferred s) (stdout s).
Definition set_opened (l : list handle) (s : state) : state :=
  State (output s) l (deferred s) (stdout s).
Definition set_deferred (l : list handle) (s : state) : state :=
  State (output s) (opened s) l (stdout s).

(** A closed handle leaves the list of open ones (once). *)
Fixpoint remove_first (h : handle) (l : list handle) : list handle :=
  match l with
  | [] => []
  | x :: r => if handle_eq_dec h x then r else x :: remove_first h r
  end.

(** [Close]: closing the archive writer flushes the central directory
    into the output file, which works while that file is open. *)
Definition close (h : handle) (s : state) : state :=
  let s1 :=
    match h, output s with
    | ZipWriter, Some z =>
        if is_open ZipWriter s && is_open OutputFile s
        then set_output (Some (Zip (entries z) true)) s
        else s
    | _, _ => s
    end in
  set_opened (remove_first h (opened s1)) s1.

(** Deferred closes run last registered first. *)
Fixpoint run_deferred (l : list handle) (s : state) : state :=
  match l with
  | [] => s
  | h :: r => run_deferred r (close h s)
  end.

(** A Go function: its body runs with a defer stack of its own, and
    the deferred calls run when it returns. *)
Definition func {R} (body : M R R) : state -> R * state :=
  fun s =>
    let '(st, s1) := body (set_deferred [] s) in
    let s2 := run_deferred (deferred s1) s1 in
    (match st with Next r => r | Return r => r end,
     set_deferred (deferred s) s2).

Definition defer {R} (h : handle) : M R unit :=
  fun s => (Next tt, set_deferred (h :: deferred s) s).

Definition print {R} (m : message) : M R unit :=
  fun s => (Next tt, State (output s) (opened s) (deferred s) (stdout s ++ [m])).

(** *** The operating system *)

(** [os.Stat]: the node at the path, or why there is none. *)
Definition os_Stat {R} (E : env) (path : Filepath.t) : M R (option node * option oserr) :=
  pure
    match source E with
    | None => (None, Some ENOENT)
    | Some top =>
        match resolve top (Filepath.elems path) with
        | None => (None, Some ENOENT)
        | Some Inaccessible => (None, Some EOTHER)
        | Some n => (Some n, None)
        end
    end.

(** [os.Create xlsxPath]: the output file is created empty, or
    truncated. *)
Definition os_Create {R} (E : env) : M R (option oserr) :=
  fun s =>
    if create_fails E then (Next (Some EOTHER), s)
    else (Next None,
          set_opened (OutputFile :: opened s) (set_output (Some (Zip [] false)) s)).

(** [os.Open path]: a directory can be opened, reading it fails. *)
Definition os_Open {R} (E : env) (path : Filepath.t) : M R (option node * option oserr) :=
  fun s =>
    match source E with
    | None => (Next (None, Some ENOENT), s)
    | Some top =>
        match resolve top (Filepath.elems path) with
        | None => (Next (None, Some ENOENT), s)
        | Some Inaccessible => (Next (None, Some EOTHER), s)
        | Some (File _ OpenFails) => (Next (None, Some EOTHER), s)
        | Some n => (Next (Some n, None), set_opened (SourceFile path :: opened s) s)
        end
    end.

(** *** The archive writer *)

Definition zip_NewWriter {R} : M R unit :=
  fun s => (Next tt, set_opened (ZipWriter :: opened s) s).

(** [zipWriter.CreateHeader]: a new, empty entry at the end of the
    archive.  The entry's name stands for the writer it returns. *)
Definition zip_CreateHeader {R} (E : env) (name : string) (method : Method)
  : M R (option oserr) :=
  fun s =>
    if header_fails E name then (Next (Some EOTHER), s)
    else
      match output s with
      | Some z =>
          (Next None, set_output (Some (Zip (entries z ++ [Entry name method []]) (finalized z))) s)
      | None => (Next (Some EOTHER), s)
      end.

(** [zipWriter.Create] is [CreateHeader] with the Deflate method. *)
Definition zip_Create {R} (E : env) (name : string) : M R (option oserr) :=
  zip_CreateHeader E name Deflate.

(** Bytes written to the current entry, which is the last one. *)
Fixpoint write_last (data : bytes) (l : list entry) : list entry :=
  match l with
  | [] => []
  | [e] => [Entry (Name e) (Meth e) (Data e ++ data)]
  | e :: r => e :: write_last data r
  end.

(** [io.Copy writer file]. *)
Definition io_Copy {R} (E : env) (writer : string) (file : node) : M R (option oserr) :=
  fun s =>
    match file with
    | File data Healthy =>
        if write_fails E writer then (Next (Some EOTHER), s)
        else
          match output s with
          | Some z =>
              (Next None, set_output (Some (Zip (write_last data (entries z)) (finalized z))) s)
          | None => (Next (Some EOTHER), s)
          end
    | _ => (Next (Some EOTHER), s)
    end.

(** ** The tree walk ([filepath.Walk]) *)

(** What a callback tells the walk. *)
Inductive walkres :=
| WNil                   (* go on *)
| WErr (e : walkerr)     (* stop with this error *)
| WPanic.                (* the callback panicked *)

(** Names are compared byte by byte, as [slices.Sort] does on Go
    strings. *)
Definition name_leb (a b : string) : bool :=
  match String_as_OT.compare a b with
  | Gt => false
  | _ => true
  end.

Fixpoint insert_by_name {A} (x : string * A) (l : list (string * A)) : list (string * A) :=
  match l with
  | [] => [x]
  | y :: r => if name_leb (fst x) (fst y) then x :: l else y :: insert_by_name x r
  end.

(** The listing in the order the walk visits it. *)
Fixpoint sort_by_name {A} (l : list (string * A)) : list (string * A) :=
  match l with
  | [] => []
  | x :: r => insert_by_name x (sort_by_name r)
  end.

(** The loop over the names of a directory stops at the first result
    that is not nil. *)
Fixpoint run_all (l : list (string * (state -> walkres * state))) (s : state)
  : walkres * state :=
  match l with
  | [] => (WNil, s)
  | (_, visit) :: r =>
      match visit s with
      | (WNil, s1) => run_all r s1
      | stop => stop
      end
  end.

Section Walk.

Variable walkFn :
  Filepath.t -> option node -> option walkerr -> state -> walkres * state.

(** [walk path info walkFn]: the callback sees the node, then the walk
    descends into a directory in the order of its sorted names.  A name
    that cannot be stat-ed and a directory that cannot be listed are
    handed to the callback with the error, and the callback's answer
    decides. *)
Fixpoint walk (n : node) (path : Filepath.t) {struct n} : state -> walkres * state :=
  match n with
  | Inaccessible => walkFn path None (Some (WalkIO path))
  | File _ _ => walkFn path (Some n) None
  | Dir listable listing =>
      fun s =>
        let err := if listable then None else Some (WalkIO path) in
        let '(err1, s1) := walkFn path (Some n) err s in
        match err, err1 with
        | None, WNil =>
            run_all
              (sort_by_name
                 ((fix visit (l : list (string * node)) :=
                     match l with
                     | [] => []
                     | (name, c) :: r =>
                         (name, walk c (Filepath.Join path name)) :: visit r
                     end) listing))
              s1
        | _, _ => (err1, s1)
        end
  end.

(** [filepath.Walk root fn]: what is at [root] is stat-ed first. *)
Definition Walk (at_root : option node) (root : string) : state -> walkres * state :=
  let path := Filepath.Path root [] in
  match at_root with
  | Some top => walk top path
  | None => walkFn path None (Some (WalkIO path))
  end.

End Walk.

(** ** The program *)

Local Open Scope go_scope.

(** The function literal handed to [filepath.Walk]. *)
Definition walkFn (E : env) (dirPath : string)
    (path : Filepath.t) (info : option node) (err : option walkerr)
  : state -> walkres * state :=
  func (
    match err with
    | Some e => return_ (WErr e)
    | None =>
    match info with
    | None => return_ WPanic
    | Some i =>
    if IsDir i then return_ WNil else
    if Filepath.Base (Separator E) path =? "mimetype" then return_ WNil else
    let relPath := Filepath.ToSlash (Separator E) (Filepath.Rel (Separator E) path) in
    print (Adding relPath) ;;
    err <- zip_Create E relPath ;;
    match err with
    | Some _ => return_ (WErr (CreateEntryFailed relPath))
    | None =>
    ' (fileToZip, err) <- os_Open E path ;;
    match fileToZip, err with
    | Some file, None =>
        defer (SourceFile path) ;;
        err <- io_Copy E relPath file ;;
        return_ (match err with
                 | Some _ => WErr (CopyFailed relPath)
                 | None => WNil
                 end)
    | _, _ => return_ (WErr (OpenFailed path))
    end end end end).

(** The statement that writes the [mimetype] entry first: the
    [if _, err := os.Stat(mimetypePath); !os.IsNotExist(err)] of
    [createXLSXFromDir], with both its branches. *)
Definition add_mimetype (E : env) (mimetypePath : Filepath.t) : M result unit :=
  ' (_, err) <- os_Stat E mimetypePath ;;
  if negb (IsNotExist err) then
    print AddingMimetype ;;
    err <- zip_CreateHeader E "mimetype" Store ;;
    match err with
    | Some _ => return_ (Err MimetypeHeaderFailed)
    | None =>
    ' (mimetypeFile, err) <- os_Open E mimetypePath ;;
    match mimetypeFile, err with
    | Some file, None =>
        defer (SourceFile mimetypePath) ;;
        err <- io_Copy E "mimetype" file ;;
        match err with
        | Some _ => return_ (Err MimetypeCopyFailed)
        | None => pure tt
        end
    | _, _ => return_ (Err MimetypeOpenFailed)
    end end
  else print WarnNoMimetype.

Definition createXLSXFromDir (E : env) (dirPath xlsxPath : string)
  : state -> result * state :=
  let top := Filepath.Path dirPath [] in
  func (
    ' (dirInfo, err) <- os_Stat E top ;;
    if IsNotExist err then return_ (Err (NotFound dirPath)) else
    match dirInfo with
    | None => return_ NilDereference
    | Some info =>
    if negb (IsDir info) then return_ (Err (NotADirectory dirPath)) else
    ' (_, err) <- os_Stat E (Filepath.Join top "[Content_Types].xml") ;;
    (if IsNotExist err then print (WarnNoContentTypes dirPath) else pure tt) ;;
    print (Rebuilding dirPath) ;;
    err <- os_Create E ;;
    match err with
    | Some _ => return_ (Err CreateOutputFailed)
    | None =>
    defer OutputFile ;;
    zip_NewWriter ;;
    defer ZipWriter ;;
    let mimetypePath := Filepath.Join top "mimetype" in
    add_mimetype E mimetypePath ;;
    err <- call (Walk (walkFn E dirPath) (source E) dirPath) ;;
    match err with
    | WPanic => return_ NilDereference
    | WErr e => return_ (Err (WalkFailed dirPath e))
    | WNil =>
        print (Success (Filepath.BaseString (Separator E) xlsxPath)) ;;
        return_ Nil
    end end end).

(** ** What the statements are about *)

(** The regular files below a node, each with the names leading to it
    and its bytes, in the order of the listings. *)
Fixpoint files_of (n : node) (names : list string) : list (list string * bytes) :=
  match n with
  | File data _ => [(names, data)]
  | Dir _ listing =>
      flat_map (fun kc => files_of (snd kc) (names ++ [fst kc])) listing
  | Inaccessible => []
  end.

(** The name of an archive entry: the names joined by forward
    slashes. *)
Definition slash_path (names : list string) : string :=
  String.concat "/" names.

(** The name the callback computes from the names leading to a file:
    [filepath.Rel], then [filepath.ToSlash]. *)
Definition rel_names (sep : ascii) (names : list string) : string :=
  Filepath.ToSlash sep (Filepath.Rel sep (Filepath.Path "" names)).

(** The entry the packer makes of a file it visits. *)
Definition deflated (f : list string * bytes) : entry :=
  Entry (slash_path (fst f)) Deflate (snd f).

(** The walk passes over a file whose last name is [mimetype]. *)
Definition named_mimetype (names : list string) : bool :=
  match names with
  | [] => false
  | k :: r => last r k =? "mimetype"
  end.

Definition kept (f : list string * bytes) : bool :=
  negb (named_mimetype (fst f)).

(** Does a character occur in a name. *)
Fixpoint occurs (c : ascii) (name : string) : bool :=
  match name with
  | EmptyString => false
  | String a r => Ascii.eqb a c || occurs c r
  end.

Fixpoint distinct (l : list string) : bool :=
  match l with
  | [] => true
  | k :: r => negb (existsb (String.eqb k) r) && distinct r
  end.

(** A tree a file system can hold: in every directory the names are
    pairwise different and none contains the host separator. *)
Fixpoint well_formed (sep : ascii) (n : node) : bool :=
  match n with
  | Dir _ listing =>
      distinct (map fst listing)
      && forallb (fun kc => negb (occurs sep (fst kc)) && well_formed sep (snd kc)) listing
  | _ => true
  end.

(** No step of the walk meets a fault: every directory can be listed,
    every name can be stat-ed, and every file the walk does not pass
    over can be opened, read, and written to the archive. *)
Fixpoint fault_free (E : env) (n : node) (names : list string) : bool :=
  match n with
  | File _ flt =>
      named_mimetype names
      || (match flt with Healthy => true | _ => false end
          && negb (header_fails E (rel_names (Separator E) names))
          && negb (write_fails E (rel_names (Separator E) names)))
  | Dir listable listing =>
      listable
      && forallb (fun kc => fault_free E (snd kc) (names ++ [fst kc])) listing
  | Inaccessible => false
  end.

(** Two listings of the same directory state: the same names with the
    same content, whatever the order the system lists them in. *)
Inductive same_tree : node -> node -> Prop :=
| same_file data flt : same_tree (File data flt) (File data flt)
| same_inaccessible : same_tree Inaccessible Inaccessible
| same_dir listable l1 l2 l3 :
    Permutation l1 l2 ->
    Forall2 (fun a b => fst a = fst b /\ same_tree (snd a) (snd b)) l2 l3 ->
    same_tree (Dir listable l1) (Dir listable l3).

(** ** Auxiliary notions of the proofs *)

(** The order of two listing entries is the order of their names. *)
Definition key_le {A} (x y : string * A) : Prop := name_leb (fst x) (fst y) = true.

(** Sorted: every element is below all that follow it. *)
Fixpoint sorted {A} (l : list (string * A)) : Prop :=
  match l with
  | [] => True
  | x :: r => Forall (key_le x) r /\ sorted r
  end.

(** The visits the walk makes for a listing, each with its name. *)
Definition visits (fn : Filepath.t -> option node -> option walkerr -> state -> walkres * state)
    (path : Filepath.t) (listing : list (string * node))
  : list (string * (state -> walkres * state)) :=
  map (fun kc => (fst kc, walk fn (snd kc) (Filepath.Join path (fst kc)))) listing.

(** What a state keeps across a call: the open handles, the pending
    closes, and the entries already in the archive.  [added] is what
    the call appended. *)
Definition extends (s s' : state) (added : list entry) : Prop :=
  opened s' = opened s
  /\ deferred s' = deferred s
  /\ match output s with
     | None => output s' = None /\ added = []
     | Some z => output s' = Some (Zip (entries z ++ added) (finalized z))
     end.

(** The state after a walk that appended [added] and printed [lines]. *)
Definition advanced (s : state) (z : zipfile) (added : list entry)
    (lines : list message) : state :=
  State (Some (Zip (entries z ++ added) (finalized z)))
        (opened s) (deferred s) (stdout s ++ lines).

Definition file_ok (E : env) (names : list string) (flt : fault) : bool :=
  match flt with Healthy => true | _ => false end
  && negb (header_fails E (rel_names (Separator E) names))
  && negb (write_fails E (rel_names (Separator E) names)).

(** An entry made from a regular file below [n] that is not named
    [mimetype]: Deflate, and named after the file. *)
Definition made_from (sep : ascii) (n : node) (names : list string) (e : entry) : Prop :=
  Meth e = Deflate
  /\ exists f, In f (files_of n names) /\ kept f = true
               /\ Name e = rel_names sep (fst f).

(** The files the walk adds, in the order it visits them. *)
Fixpoint plan (n : node) (names : list string) : list (list string * bytes) :=
  match n with
  | File data _ => if named_mimetype names then [] else [(names, data)]
  | Dir _ listing =>
      List.concat (map snd (sort_by_name
        (map (fun kc => (fst kc, plan (snd kc) (names ++ [fst kc]))) listing)))
  | Inaccessible => []
  end.

(** The entry and the line printed for a file of the plan. *)
Definition planned (sep : ascii) (f : list string * bytes) : entry :=
  Entry (rel_names sep (fst f)) Deflate (snd f).

Definition announced (sep : ascii) (f : list string * bytes) : message :=
  Adding (rel_names sep (fst f)).

(** What is printed before the output file is created. *)
Definition greeting (dirPath : string) (listing : list (string * node)) : list message :=
  match child "[Content_Types].xml" listing with
  | None => [WarnNoContentTypes dirPath]
  | Some _ => []
  end ++ [Rebuilding dirPath].

(** The state in which the archive writer starts: the output file is
    empty, both handles are open and their closes are pending. *)
Definition started (dirPath : string) (listing : list (string * node)) (s : state) : state :=
  State (Some (Zip [] false))
        (ZipWriter :: OutputFile :: opened s)
        [ZipWriter; OutputFile]
        (stdout s ++ greeting dirPath listing).

Definition say (m : message) (s : state) : state :=
  State (output s) (opened s) (deferred s) (stdout s ++ [m]).

(** Leaving the function from state [s]: the pending closes run, and
    the caller's own pending closes are back. *)
Definition finish (s0 s : state) : state :=
  set_deferred (deferred s0) (run_deferred (deferred s) s).

(** The statement that writes the [mimetype] entry meets no fault. *)
Definition mimetype_ok (E : env) (listing : list (string * node)) : bool :=
  match child "mimetype" listing with
  | None => true
  | Some (File _ Healthy) =>
      negb (header_fails E "mimetype") && negb (write_fails E "mimetype")
  | Some _ => false
  end.

(** Nothing fails after the output file is created. *)
Definition sound (E : env) (listable : bool) (listing : list (string * node)) : bool :=
  mimetype_ok E listing && fault_free E (Dir listable listing) [].

(** The first entry and the line printed for it. *)
Definition mimetype_entry (listing : list (string * node)) : list entry :=
  match child "mimetype" listing with
  | Some (File data _) => [Entry "mimetype" Store data]
  | _ => []
  end.

Definition mimetype_line (listing : list (string * node)) : message :=
  match child "mimetype" listing with
  | None => WarnNoMimetype
  | Some _ => AddingMimetype
  end.

(** The same host with another tree at [dirPath]. *)
Definition with_source (E : env) (t : node) : env :=
  Env (Separator E) (Some t) (create_fails E) (header_fails E) (write_fails E).

Definition related (a b : option node) : Prop :=
  match a, b with
  | Some x, Some y => same_tree x y
  | None, None => True
  | _, _ => False
  end.

(** What the walk does on a subtree, from a state whose archive is
    open. *)
Definition walk_as_planned (E : env) (dirPath root : string)
    (n : node) (names : list string) : Prop :=
  forall s z,
    output s = Some z ->
    (fault_free E n names = true ->
     walk (walkFn E dirPath) n (Filepath.Path root names) s
     = (WNil, advanced s z (map (planned (Separator E)) (plan n names))
                       (map (announced (Separator E)) (plan n names))))
    /\ (fault_free E n names = false ->
        exists e, fst (walk (walkFn E dirPath) n (Filepath.Path root names) s) = WErr e).

(** ** The first fault of a walk *)

(** Everything below a node, the node first, in the order in which the
    walk hands it to the callback: a directory before what it holds,
    and what it holds in the order of the sorted names. *)
Fixpoint visited (n : node) (names : list string) : list (list string * node) :=
  match n with
  | Dir _ listing =>
      (names, n)
        :: List.concat (map snd (sort_by_name
             (map (fun kc => (fst kc, visited (snd kc) (names ++ [fst kc]))) listing)))
  | _ => [(names, n)]
  end.

(** The callback returns nil for this visit: a directory that can be
    listed, a file named [mimetype], or a file that is added whole. *)
Definition step_ok (E : env) (v : list string * node) : bool :=
  match snd v with
  | File _ flt => named_mimetype (fst v) || file_ok E (fst v) flt
  | Dir listable _ => listable
  | Inaccessible => false
  end.

(** The file a visit adds when the callback returns nil. *)
Definition added_by (v : list string * node) : list (list string * bytes) :=
  match snd v with
  | File data _ => if named_mimetype (fst v) then [] else [(fst v, data)]
  | _ => []
  end.

(** What a visit that fails returns, and what it leaves behind: the
    line it printed and the entry it had begun, which is still empty. *)
Definition fault_cause (E : env) (root : string) (v : list string * node) : walkerr :=
  let relPath := rel_names (Separator E) (fst v) in
  match snd v with
  | File _ flt =>
      if header_fails E relPath then CreateEntryFailed relPath
      else match flt with
           | OpenFails => OpenFailed (Filepath.Path root (fst v))
           | _ => CopyFailed relPath
           end
  | _ => WalkIO (Filepath.Path root (fst v))
  end.

Definition fault_entries (E : env) (v : list string * node) : list entry :=
  let relPath := rel_names (Separator E) (fst v) in
  match snd v with
  | File _ _ => if header_fails E relPath then [] else [Entry relPath Deflate []]
  | _ => []
  end.

Definition fault_lines (E : env) (v : list string * node) : list message :=
  match snd v with
  | File _ _ => [Adding (rel_names (Separator E) (fst v))]
  | _ => []
  end.

(** The fault of the statement that writes the [mimetype] entry, with
    the entry it leaves behind. *)
Definition mimetype_fault (E : env) (listing : list (string * node))
  : option (error * list entry) :=
  match child "mimetype" listing with
  | None => None
  | Some n =>
      if header_fails E "mimetype" then Some (MimetypeHeaderFailed, [])
      else
        match n with
        | Inaccessible => Some (MimetypeOpenFailed, [Entry "mimetype" Store []])
        | File _ OpenFails => Some (MimetypeOpenFailed, [Entry "mimetype" Store []])
        | File _ Healthy =>
            if write_fails E "mimetype"
            then Some (MimetypeCopyFailed, [Entry "mimetype" Store []])
            else None
        | _ => Some (MimetypeCopyFailed, [Entry "mimetype" Store []])
        end
  end.

(** A walk that meets a fault: it did what the visits before the first
    failing one do, then what the failing visit does, and returned the
    error of that visit. *)
Definition stops_at_first_fault (E : env) (dirPath root : string)
    (n : node) (names : list string) : Prop :=
  forall s z before bad after,
    output s = Some z ->
    visited n names = before ++ bad :: after ->
    forallb (step_ok E) before = true ->
    step_ok E bad = false ->
    let files := flat_map added_by before in
    walk (walkFn E dirPath) n (Filepath.Path root names) s
    = (WErr (fault_cause E root bad),
       advanced s z (map (planned (Separator E)) files ++ fault_entries E bad)
                    (map (announced (Separator E)) files ++ fault_lines E bad)).

(** ** Sample trees *)

Definition empty_state : state := State None [] [] [].

(** An unpacked workbook, listed in no particular order. *)
Definition workbook : node :=
  Dir true
    [ ("xl", Dir true [ ("workbook.xml", File [x3c; x77; x3e] Healthy);
                        ("styles.xml", File [x3c; x73] Healthy) ]);
      ("mimetype", File [x61; x70; x70] Healthy);
      ("[Content_Types].xml", File [x3c; x3f] Healthy) ].

(** The same workbook as another listing order gives it. *)
Definition workbook_relisted : node :=
  Dir true
    [ ("mimetype", File [x61; x70; x70] Healthy);
      ("xl", Dir true [ ("styles.xml", File [x3c; x73] Healthy);
                        ("workbook.xml", File [x3c; x77; x3e] Healthy) ]);
      ("[Content_Types].xml", File [x3c; x3f] Healthy) ].

(** A tree without [mimetype] and without [[Content_Types].xml]. *)
Definition loose_files : node :=
  Dir true
    [ ("b.txt", File [x62] Healthy);
      ("a", Dir true [ ("c.txt", File [x63; x63] Healthy) ]) ].

(** A tree whose second file cannot be opened. *)
Definition unreadable_file : node :=
  Dir true
    [ ("a.txt", File [x61] Healthy);
      ("b.txt", File [x62] OpenFails);
      ("c.txt", File [x63] Healthy) ].

(** A file named [mimetype] inside a subdirectory. *)
Definition nested_mimetype : node :=
  Dir true
    [ ("a.txt", File [x61] Healthy);
      ("sub", Dir true [ ("mimetype", File [x6d; x6d] Healthy) ]) ].

(** A root [mimetype] of two bytes and three more files of one, two and
    three bytes, the last of them named [mimetype] in a subdirectory. *)
Definition four_files : node :=
  Dir true
    [ ("mimetype", File [x61; x70] Healthy);
      ("a.xml", File [x31] Healthy);
      ("b.xml", File [x32; x32] Healthy);
      ("sub", Dir true [ ("mimetype", File [x33; x33; x33] Healthy) ]) ].

(** A file and a directory whose name is the beginning of the file's
    name. *)
Definition prefix_names : node :=
  Dir true
    [ ("a.txt", File [x31] Healthy);
      ("a", Dir true [ ("c.txt", File [x32] Healthy) ]) ].

(** A host on which no write fails. *)
Definition host (sep : ascii) (at_dirPath : option node) : env :=
  Env sep at_dirPath false (fun _ => false) (fun _ => false).

(** ** The command around the packer ([main]) *)

(** What [main] itself writes: the complaint about a missing flag, the
    usage text, and the fatal message of [log.Fatalf]. *)
Inductive notice :=
| MissingFlags
| Usage
| Fatal (e : error).

(** [main], once the flags [-in] and [-out] are parsed: the exit
    status, what [main] wrote, and the state it leaves.  A panic ends
    a Go program with status 2. *)
Definition main (E : env) (inputDir outputXlsx : string) (s : state)
  : nat * list notice * state :=
  if (inputDir =? "") || (outputXlsx =? "") then (1, [MissingFlags; Usage], s)
  else
    match createXLSXFromDir E inputDir outputXlsx s with
    | (Nil, s') => (0, [], s')
    | (Err e, s') => (1, [Fatal e], s')
    | (NilDereference, s') => (2, [], s')
    end.

(** ** The order of the archive *)

(** The order of the walk on two paths to files: at the first name
    where they differ, the smaller name comes first. *)
Fixpoint path_before (p q : list string) : Prop :=
  match p, q with
  | a :: p', b :: q' =>
      if String.eqb a b then path_before p' q' else name_leb a b = true
  | _, _ => False
  end.

(** ** The Firestore document reader ([parseFirestoreFields]) *)

(** What [encoding/json] decodes into an [any]: nil, a bool, a number,
    a string, a slice, or a map with string keys.  The function never
    looks into a number, which is kept as the literal it was read from.
    A map is the list of its members in the order the runtime
    enumerates them in this run; its keys are pairwise different. *)
Inductive json :=
| JNull
| JBool (b : bool)
| JNumber (literal : string)
| JString (s : string)
| JArray (items : list json)
| JObject (members : list (string * json)).

(** [m[key]]. *)
Fixpoint lookup {A} (key : string) (m : list (string * A)) : option A :=
  match m with
  | [] => None
  | (k, v) :: r => if String.eqb k key then Some v else lookup key r
  end.

(** [m[key] = v]: the member is replaced, or added. *)
Fixpoint assign {A} (key : string) (v : A) (m : list (string * A)) : list (string * A) :=
  match m with
  | [] => [(key, v)]
  | (k, x) :: r =>
      if String.eqb k key then (k, v) :: r else (k, x) :: assign key v r
  end.

(** [parseFirestoreFields] on the map [j] (nothing for a value that is
    no map).  The outer loop ranges over the fields; the inner loop
    takes the member of the typed value that the runtime enumerates
    first and breaks; [index] is [mapValue["fields"]] with its type
    assertion, followed by the recursive call. *)
Fixpoint parseObject (j : json) : list (string * json) :=
  match j with
  | JObject fields =>
      (fix range (fs : list (string * json)) (parsedData : list (string * json)) :=
         match fs with
         | [] => parsedData
         | (key, value) :: rest =>
             range rest
               match value with
               | JObject valueDict =>
                   match valueDict with
                   | [] => parsedData
                   | (valueType, actualValue) :: _ =>
                       if valueType =? "mapValue" then
                         match actualValue with
                         | JObject mapValue =>
                             match
                               (fix index (mv : list (string * json)) :=
                                  match mv with
                                  | [] => None
                                  | (k, v) :: r =>
                                      if k =? "fields" then
                                        match v with
                                        | JObject _ => Some (parseObject v)
                                        | _ => None
                                        end
                                      else index r
                                  end) mapValue
                             with
                             | Some nestedFields =>
                                 assign key (JObject nestedFields) parsedData
                             | None => parsedData
                             end
                         | _ => parsedData
                         end
                       else assign key actualValue parsedData
                   end
               | _ => assign key value parsedData
               end
         end) fields []
  | _ => []
  end.

(** [parseFirestoreFields fields]; [None] is the nil map. *)
Definition parseFirestoreFields (fields : option (list (string * json)))
  : list (string * json) :=
  match fields with
  | None => []
  | Some fs => parseObject (JObject fs)
  end.

(** What the loop body makes of the value of one field: nothing when
    the field is left out. *)
Definition unwrapped (value : json) : option json :=
  match value with
  | JObject [] => None
  | JObject ((valueType, actualValue) :: _) =>
      if valueType =? "mapValue" then
        match actualValue with
        | JObject mapValue =>
            match lookup "fields" mapValue with
            | Some (JObject nestedFields) =>
                Some (JObject (parseFirestoreFields (Some nestedFields)))
            | _ => None
            end
        | _ => None
        end
      else Some actualValue
  | _ => Some value
  end.

(** One turn of the outer loop. *)
Definition turn (parsedData : list (string * json)) (field : string * json)
  : list (string * json) :=
  match unwrapped (snd field) with
  | Some v => assign (fst field) v parsedData
  | None => parsedData
  end.

(** A document of typed values: a leaf is a value under its type tag,
    a map is a [mapValue] with its [fields]. *)
Inductive document :=
| Typed (tag : string) (v : json)
| Mapped (fields : list (string * document)).

(** The typed form of a document, as the function expects it. *)
Fixpoint typed (d : document) : json :=
  match d with
  | Typed tag v => JObject [(tag, v)]
  | Mapped fields =>
      JObject [("mapValue",
                JObject [("fields",
                          JObject (map (fun kd => (fst kd, typed (snd kd))) fields))])]
  end.

(** The plain form of a document. *)
Fixpoint plain (d : document) : json :=
  match d with
  | Typed _ v => v
  | Mapped fields => JObject (map (fun kd => (fst kd, plain (snd kd))) fields)
  end.

(** No leaf is tagged [mapValue], and the keys of every map are
    pairwise different. *)
Fixpoint tagged (d : document) : bool :=
  match d with
  | Typed tag _ => negb (tag =? "mapValue")
  | Mapped fields =>
      distinct (map fst fields) && forallb (fun kd => tagged (snd kd)) fields
  end.

(** ** The permission report ([performPermissionCheck]) *)

Definition PERMISSIONS_TO_CHECK : list string :=
  [ "cloudfunctions.functions.call";
    "cloudfunctions.functions.invoke";
    "cloudfunctions.functions.delete";
    "cloudfunctions.functions.get";
    "cloudfunctions.functions.update";
    "cloudfunctions.functions.sourceCodeGet";
    "cloudfunctions.functions.sourceCodeSet";
    "cloudfunctions.functions.getIamPolicy";
    "cloudfunctions.functions.setIamPolicy";
    "cloudfunctions.operations.get";
    "cloudfunctions.operations.list" ].

(** The map built from the permissions of the response:
    [grantedPermissions[p] = true] for each of them in turn. *)
Definition grantedPermissions (permissions : list string) : list (string * bool) :=
  fold_left (fun m p => assign p true m) permissions [].

(** [grantedPermissions[permission]]: a key that is not there reads
    false. *)
Definition is_granted (m : list (string * bool)) (permission : string) : bool :=
  match lookup permission m with
  | Some b => b
  | None => false
  end.

Inductive verdict :=
| Granted (permission : string)
| NotGranted (permission : string).

(** What the function prints for a response with status 200 whose body
    decoded: one line for each permission checked, then the count
    [len(grantedPermissions)] out of [len(PERMISSIONS_TO_CHECK)]. *)
Definition permissionReport (permissions : list string) : list verdict * (nat * nat) :=
  let m := grantedPermissions permissions in
  (map (fun permission =>
          if is_granted m permission then Granted permission
          else NotGranted permission)
       PERMISSIONS_TO_CHECK,
   (List.length m, List.length PERMISSIONS_TO_CHECK)).

(** The lines that say granted. *)
Definition granted_lines (lines : list verdict) : list string :=
  flat_map (fun v => match v with Granted p => [p] | NotGranted _ => [] end) lines.

(** ** What a run prints *)

(** From [s] to [s'] only lines that satisfy [P] were printed. *)
Definition printed (P : message -> Prop) (s s' : state) : Prop :=
  exists lines, stdout s' = stdout s ++ lines /\ Forall P lines.

Definition is_adding (m : message) : Prop :=
  match m with Adding _ => True | _ => False end.

Definition is_success (m : message) : Prop :=
  match m with Success _ => True | _ => False end.

(** ** Lemmas *)

(** *** Induction on trees *)

Lemma node_ind' (P : node -> Prop) :
  (forall data flt, P (File data flt)) ->
  P Inaccessible ->
  (forall listable listing,
      Forall (fun kc => P (snd kc)) listing -> P (Dir listable listing)) ->
  forall n, P n.
Proof.
  intros HF HI HD.
  fix IH 1.
  intros [data flt | listable listing | ].
  - apply HF.
  - apply HD.
    induction listing as [| [k c] r IHr]; constructor; [apply IH | exact IHr].
  - exact HI.
Qed.

(** *** The order on names *)

Lemma name_leb_total a b : name_leb a b = true \/ name_leb b a = true.
Proof.
  unfold name_leb.
  destruct (String_as_OT.compare_spec a b) as [Heq | Hlt | Hgt]; auto.
  right.
  destruct (String_as_OT.compare_spec b a) as [Heq' | Hlt' | Hgt']; auto.
  exfalso. eapply (@irreflexivity _ String_as_OT.lt _ a).
  etransitivity; eassumption.
Qed.

Lemma name_leb_antisym a b :
  name_leb a b = true -> name_leb b a = true -> a = b.
Proof.
  unfold name_leb.
  destruct (String_as_OT.compare_spec a b) as [Heq | Hlt | Hgt]; auto;
    destruct (String_as_OT.compare_spec b a) as [Heq' | Hlt' | Hgt']; auto;
    try discriminate.
  intros _ _. exfalso. eapply (@irreflexivity _ String_as_OT.lt _ a).
  etransitivity; eassumption.
Qed.

Lemma name_leb_trans a b c :
  name_leb a b = true -> name_leb b c = true -> name_leb a c = true.
Proof.
  unfold name_leb.
  destruct (String_as_OT.compare_spec a b) as [Hab | Hab | Hab]; try discriminate;
    destruct (String_as_OT.compare_spec b c) as [Hbc | Hbc | Hbc]; try discriminate;
    destruct (String_as_OT.compare_spec a c) as [Hac | Hac | Hac]; auto;
    intros _ _; exfalso; unfold String_as_OT.eq in *; subst.
  all: eapply (@irreflexivity _ String_as_OT.lt _ _);
    solve [ eassumption
          | etransitivity; eassumption
          | etransitivity; [eassumption |]; etransitivity; eassumption ].
Qed.

(** *** Sorting a listing *)

Section Sorting.

Context {A : Type}.
Implicit Types (x y z : string * A) (l r : list (string * A)).

Lemma insert_by_name_perm x l : Permutation (insert_by_name x l) (x :: l).
Proof.
  induction l as [| y r IH]; simpl.
  - apply Permutation_refl.
  - destruct (name_leb (fst x) (fst y)).
    + apply Permutation_refl.
    + eapply perm_trans; [apply perm_skip, IH | apply perm_swap].
Qed.

Lemma sort_by_name_perm l : Permutation (sort_by_name l) l.
Proof.
  induction l as [| x r IH]; simpl.
  - constructor.
  - eapply perm_trans; [apply insert_by_name_perm | apply perm_skip, IH].
Qed.

Lemma insert_by_name_sorted x l : sorted l -> sorted (insert_by_name x l).
Proof.
  induction l as [| y r IH]; simpl; intros Hs.
  - split; [constructor | exact I].
  - destruct Hs as [Hy Hr].
    destruct (name_leb (fst x) (fst y)) eqn:Hxy; simpl.
    + split; [| split; assumption].
      constructor; [exact Hxy |].
      eapply Forall_impl; [| exact Hy].
      intros z Hz. unfold key_le in *. eapply name_leb_trans; eassumption.
    + split; [| apply IH, Hr].
      assert (Hyx : key_le y x).
      { unfold key_le. destruct (name_leb_total (fst x) (fst y)); congruence. }
      eapply Permutation_Forall; [symmetry; apply insert_by_name_perm |].
      constructor; assumption.
Qed.

Lemma sort_by_name_sorted l : sorted (sort_by_name l).
Proof.
  induction l as [| x r IH]; simpl; [exact I | apply insert_by_name_sorted, IH].
Qed.

(** In a listing with pairwise different names a name designates one
    element. *)
Lemma same_key_same_elt l x y :
  NoDup (map fst l) -> In x l -> In y l -> fst x = fst y -> x = y.
Proof.
  induction l as [| z r IH]; simpl; intros Hnd Hx Hy Hk; [contradiction |].
  inversion Hnd as [| ? ? Hnotin Hnd']; subst.
  destruct Hx as [-> | Hx], Hy as [-> | Hy]; auto.
  - exfalso. apply Hnotin. rewrite Hk. now apply in_map.
  - exfalso. apply Hnotin. rewrite <- Hk. now apply in_map.
Qed.

(** Two sorted listings of the same elements are the same list. *)
Lemma sorted_perm_eq l l' :
  sorted l -> sorted l' -> Permutation l l' -> NoDup (map fst l) -> l = l'.
Proof.
  revert l'. induction l as [| x r IH]; intros l' Hs Hs' Hp Hnd.
  - apply Permutation_nil in Hp. now subst.
  - destruct l' as [| y r'].
    { symmetry in Hp. apply Permutation_nil in Hp. discriminate. }
    destruct Hs as [Hx Hr], Hs' as [Hy Hr'].
    assert (Hxy : x = y).
    { assert (Hin_x : In x (y :: r')).
      { eapply Permutation_in; [exact Hp | now left]. }
      assert (Hin_y : In y (x :: r)).
      { eapply Permutation_in; [symmetry; exact Hp | now left]. }
      destruct Hin_x as [-> | Hin_x]; [reflexivity |].
      destruct Hin_y as [-> | Hin_y]; [reflexivity |].
      apply (same_key_same_elt (x :: r)); auto; [now left | now right |].
      apply name_leb_antisym.
      - rewrite Forall_forall in Hx. now apply Hx.
      - rewrite Forall_forall in Hy. now apply Hy. }
    subst y. f_equal.
    apply IH; auto.
    + eapply Permutation_cons_inv; exact Hp.
    + now inversion Hnd.
Qed.

Lemma sort_by_name_unique l l' :
  Permutation l l' -> NoDup (map fst l) -> sort_by_name l = sort_by_name l'.
Proof.
  intros Hp Hnd.
  apply sorted_perm_eq; try apply sort_by_name_sorted.
  - eapply perm_trans; [apply sort_by_name_perm |].
    eapply perm_trans; [exact Hp | symmetry; apply sort_by_name_perm].
  - eapply Permutation_NoDup; [| exact Hnd].
    apply Permutation_map. symmetry. apply sort_by_name_perm.
Qed.

End Sorting.

(** Sorting looks at the names only. *)
Lemma insert_by_name_map {A B} (g : string * A -> B) (x : string * A) l :
  insert_by_name (fst x, g x) (map (fun kv => (fst kv, g kv)) l)
  = map (fun kv => (fst kv, g kv)) (insert_by_name x l).
Proof.
  induction l as [| y r IH]; simpl; [reflexivity |].
  destruct (name_leb (fst x) (fst y)); simpl; [reflexivity | now rewrite IH].
Qed.

Lemma sort_by_name_map {A B} (g : string * A -> B) (l : list (string * A)) :
  sort_by_name (map (fun kv => (fst kv, g kv)) l)
  = map (fun kv => (fst kv, g kv)) (sort_by_name l).
Proof.
  induction l as [| x r IH]; simpl; [reflexivity |].
  rewrite IH. apply insert_by_name_map.
Qed.

(** *** The walk, unfolded *)

Lemma walk_Dir fn listable listing path s :
  walk fn (Dir listable listing) path s
  = let err := if listable then None else Some (WalkIO path) in
    let '(err1, s1) := fn path (Some (Dir listable listing)) err s in
    match err, err1 with
    | None, WNil => run_all (visits fn path (sort_by_name listing)) s1
    | _, _ => (err1, s1)
    end.
Proof.
  simpl.
  replace ((fix visit (l : list (string * node)) :=
              match l with
              | [] => []
              | (name, c) :: r => (name, walk fn c (Filepath.Join path name)) :: visit r
              end) listing)
    with (map (fun kc => (fst kc, walk fn (snd kc) (Filepath.Join path (fst kc)))) listing).
  - rewrite (sort_by_name_map (fun kc => walk fn (snd kc) (Filepath.Join path (fst kc)))).
    reflexivity.
  - induction listing as [| [k c] r IH]; simpl; [reflexivity | now rewrite IH].
Qed.

(** *** Handles *)

Arguments handle_eq_dec : simpl never.

Lemma remove_first_head h l : remove_first h (h :: l) = l.
Proof.
  simpl. destruct (handle_eq_dec h h) as [_ | ne]; [reflexivity | contradiction].
Qed.

Lemma write_last_app data l e :
  write_last data (l ++ [e]) = l ++ [Entry (Name e) (Meth e) (Data e ++ data)].
Proof.
  induction l as [| x r IH]; simpl; [reflexivity |].
  rewrite IH. destruct (r ++ [e]) eqn:Hr; [| reflexivity].
  destruct r; discriminate.
Qed.

(** *** One call of the callback *)

Lemma extends_refl s : extends s s [].
Proof.
  unfold extends. repeat split.
  destruct (output s) as [[es fin] |]; simpl; [| auto].
  now rewrite app_nil_r.
Qed.

Lemma extends_trans s1 s2 s3 a b :
  extends s1 s2 a -> extends s2 s3 b -> extends s1 s3 (a ++ b).
Proof.
  unfold extends. intros (Ho & Hd & Hz) (Ho' & Hd' & Hz').
  repeat split; try congruence.
  destruct (output s1) as [z1 |].
  - rewrite Hz in Hz'. simpl in Hz'. now rewrite app_assoc.
  - destruct Hz as [Hz ->]. rewrite Hz in Hz'. exact Hz'.
Qed.

Arguments Filepath.ToSlash : simpl never.
Arguments Filepath.Rel : simpl never.
Arguments Filepath.Base : simpl never.

Lemma rel_names_path sep path :
  rel_names sep (Filepath.elems path) = Filepath.ToSlash sep (Filepath.Rel sep path).
Proof. destruct path. reflexivity. Qed.

(** Unfolding the monad and the primitives of the callback. *)
Ltac run_go :=
  unfold func, bind, pure, return_, call, defer, print, zip_Create,
    zip_CreateHeader, zip_NewWriter, os_Open, os_Stat, os_Create, io_Copy,
    set_deferred, set_opened, set_output, close, is_open in *;
  simpl in *.

Ltac split_match :=
  match goal with
  | |- context [match ?x with _ => _ end] =>
      lazymatch x with
      | context [match ?y with _ => _ end] => fail
      | handle_eq_dec _ _ => fail
      | _ => destruct x eqn:?
      end
  end.

Ltac close_self :=
  repeat match goal with
    | |- context [handle_eq_dec ?h ?h] =>
        destruct (handle_eq_dec h h) as [_ | ?]; [| contradiction]
    end.

(** Every call leaves the handles and the pending closes as they were,
    and appends at most one entry: a Deflate entry for a node that is
    no directory, is not named [mimetype], and came without error. *)
Lemma walkFn_extends E dirPath path info err s :
  exists added,
    extends s (snd (walkFn E dirPath path info err s)) added
    /\ (added = []
        \/ exists i data,
            info = Some i /\ err = None /\ IsDir i = false
            /\ (Filepath.Base (Separator E) path =? "mimetype") = false
            /\ added = [Entry (rel_names (Separator E) (Filepath.elems path)) Deflate data]).
Proof.
  destruct s as [[[es fin] |] op df so].
  all: rewrite rel_names_path; unfold walkFn, extends.
  all: run_go.
  all: repeat (split_match; simpl in * ); close_self.
  all: try solve [exists []; split; [repeat split; try rewrite app_nil_r; auto | now left]].
  all: eexists; split;
    [ repeat split; try rewrite write_last_app; simpl; reflexivity
    | right; eauto 10 ].
Qed.

(** The callback panics only when it is handed neither a node nor an
    error, which the walk never does. *)
Lemma walkFn_no_panic E dirPath path info err s :
  fst (walkFn E dirPath path info err s) = WPanic -> info = None /\ err = None.
Proof.
  destruct s as [[[es fin] |] op df so].
  all: unfold walkFn.
  all: run_go.
  all: repeat (split_match; simpl in * ); try discriminate; auto.
Qed.

(** With an error the callback returns it and does nothing else. *)
Lemma walkFn_err E dirPath path info e s :
  walkFn E dirPath path info (Some e) s = (WErr e, s).
Proof. destruct s. reflexivity. Qed.

(** A directory makes no entry: the callback returns nil and leaves
    the state as it was. *)
Lemma walkFn_dir E dirPath path listable listing s :
  walkFn E dirPath path (Some (Dir listable listing)) None s = (WNil, s).
Proof. destruct s. reflexivity. Qed.

(** A file named [mimetype] is passed over, at any depth. *)
Lemma walkFn_mimetype E dirPath path data flt s :
  (Filepath.Base (Separator E) path =? "mimetype") = true ->
  walkFn E dirPath path (Some (File data flt)) None s = (WNil, s).
Proof.
  intros Hb. destruct s. unfold walkFn. simpl. rewrite Hb. reflexivity.
Qed.

Lemma Base_named_mimetype sep root names :
  names <> [] ->
  (Filepath.Base sep (Filepath.Path root names) =? "mimetype") = named_mimetype names.
Proof.
  destruct names as [| k r]; [congruence | reflexivity].
Qed.

(** Any other file that the path designates is added to the archive
    whole when nothing fails, and makes the callback return an error
    otherwise. *)
Lemma walkFn_file E dirPath path top data flt s z :
  source E = Some top ->
  resolve top (Filepath.elems path) = Some (File data flt) ->
  output s = Some z ->
  (Filepath.Base (Separator E) path =? "mimetype") = false ->
  let name := rel_names (Separator E) (Filepath.elems path) in
  (file_ok E (Filepath.elems path) flt = true ->
   walkFn E dirPath path (Some (File data flt)) None s
   = (WNil, advanced s z [Entry name Deflate data] [Adding name]))
  /\ (file_ok E (Filepath.elems path) flt = false ->
      exists e, fst (walkFn E dirPath path (Some (File data flt)) None s) = WErr e).
Proof.
  intros Hsrc Hres Hout Hbase.
  destruct s as [out op df so]. simpl in Hout. subst out.
  cbv zeta. unfold walkFn, file_ok, advanced. rewrite !rel_names_path.
  run_go. rewrite Hbase, Hsrc, Hres.
  split; intros Hok.
  - destruct flt; try discriminate. simpl in Hok.
    apply andb_prop in Hok as [Hh Hw].
    apply negb_true_iff in Hh, Hw.
    rewrite Hh. simpl. rewrite Hw. simpl. close_self.
    rewrite write_last_app. reflexivity.
  - repeat (split_match; simpl in * ); eauto; discriminate.
Qed.

(** *** The whole walk *)

Arguments walk : simpl never.
Arguments walkFn : simpl never.
Arguments Walk : simpl never.

Lemma in_sort_by_name {A} (x : string * A) l : In x (sort_by_name l) <-> In x l.
Proof.
  split; apply Permutation_in; [| symmetry]; apply sort_by_name_perm.
Qed.

Lemma made_from_child sep listable listing names k c e :
  In (k, c) listing ->
  made_from sep c (names ++ [k]) e ->
  made_from sep (Dir listable listing) names e.
Proof.
  intros Hin (Hm & f & Hf & Hk & Hn).
  split; [exact Hm |].
  exists f. repeat split; auto.
  simpl. apply in_flat_map. exists (k, c). auto.
Qed.

(** What [run_all] keeps when every visit keeps it. *)
Lemma run_all_extends (P : entry -> Prop) l :
  Forall (fun v : string * (state -> walkres * state) =>
            forall s, exists added,
              extends s (snd (snd v s)) added /\ Forall P added
              /\ fst (snd v s) <> WPanic) l ->
  forall s, exists added,
    extends s (snd (run_all l s)) added /\ Forall P added
    /\ fst (run_all l s) <> WPanic.
Proof.
  induction 1 as [| [k v] r Hv _ IH]; intros s; simpl.
  - exists []. split; [apply extends_refl | split; [constructor | discriminate]].
  - destruct (Hv s) as (a1 & He1 & Hp1 & Hn1). simpl in *.
    destruct (v s) as [[| e |] s1] eqn:Hvs; simpl in *.
    + destruct (IH s1) as (a2 & He2 & Hp2 & Hn2).
      exists (a1 ++ a2). split; [eapply extends_trans; eassumption |].
      split; [apply Forall_app; auto | exact Hn2].
    + exists a1. split; [exact He1 | split; [exact Hp1 | discriminate]].
    + congruence.
Qed.

(** Whatever happens during the walk, the handles and pending closes
    are as before, the callback never panics, and every entry appended
    is a Deflate entry made from a regular file of the tree. *)
Lemma walk_extends E dirPath root n :
  forall names s,
    names <> [] \/ IsDir n = true ->
    exists added,
      extends s (snd (walk (walkFn E dirPath) n (Filepath.Path root names) s)) added
      /\ Forall (made_from (Separator E) n names) added
      /\ fst (walk (walkFn E dirPath) n (Filepath.Path root names) s) <> WPanic.
Proof.
  induction n as [data flt | | listable listing IH] using node_ind';
    intros names s Hnames.
  - (* a file *)
    unfold walk.
    destruct (walkFn_extends E dirPath (Filepath.Path root names)
                (Some (File data flt)) None s) as (added & Hext & Hadd).
    exists added. split; [exact Hext |]. split.
    + destruct Hadd as [-> | (i & d & Hi & _ & _ & Hb & ->)]; constructor; [| constructor].
      destruct Hnames as [Hne | Hd]; [| discriminate].
      rewrite Base_named_mimetype in Hb by exact Hne.
      split; [reflexivity |].
      exists (names, data). simpl. unfold kept. simpl. rewrite Hb. auto.
    + intros Hp. apply walkFn_no_panic in Hp as [Hp _]. discriminate.
  - (* a name that cannot be stat-ed *)
    unfold walk. rewrite walkFn_err. simpl.
    exists []. split; [apply extends_refl | split; [constructor | discriminate]].
  - (* a directory *)
    rewrite walk_Dir. destruct listable; cbv zeta.
    + rewrite walkFn_dir.
      apply run_all_extends.
      unfold visits. rewrite Forall_map, Forall_forall.
      intros [k c] Hin s'. simpl.
      apply (proj1 (in_sort_by_name _ _)) in Hin.
      rewrite Forall_forall in IH.
      destruct (IH (k, c) Hin (names ++ [k]) s') as (added & He & Hp & Hn).
      { left. destruct names; discriminate. }
      exists added. split; [exact He | split; [| exact Hn]].
      eapply Forall_impl; [| exact Hp].
      intros e. now apply made_from_child.
    + rewrite walkFn_err. simpl.
      exists []. split; [apply extends_refl | split; [constructor | discriminate]].
Qed.

(** *** A walk that meets no fault *)

Lemma plan_Dir listable listing names :
  plan (Dir listable listing) names
  = flat_map (fun kc => plan (snd kc) (names ++ [fst kc])) (sort_by_name listing).
Proof.
  simpl.
  rewrite (sort_by_name_map (fun kc => plan (snd kc) (names ++ [fst kc]))).
  rewrite map_map. simpl. symmetry. apply flat_map_concat_map.
Qed.

Lemma advanced_nil s z : output s = Some z -> advanced s z [] [] = s.
Proof.
  destruct s as [out op df so], z as [es fin]. simpl. intros ->.
  unfold advanced. simpl. now rewrite !app_nil_r.
Qed.

Lemma advanced_advanced s z a1 m1 a2 m2 :
  advanced (advanced s z a1 m1) (Zip (entries z ++ a1) (finalized z)) a2 m2
  = advanced s z (a1 ++ a2) (m1 ++ m2).
Proof.
  unfold advanced. simpl. now rewrite !app_assoc.
Qed.

Lemma child_In k c listing :
  distinct (map fst listing) = true -> In (k, c) listing -> child k listing = Some c.
Proof.
  induction listing as [| [k' c'] r IH]; simpl; [contradiction |].
  intros Hd Hin. apply andb_prop in Hd as [Hk Hr].
  destruct Hin as [Heq | Hin].
  - inversion Heq; subst. now rewrite String.eqb_refl.
  - destruct (String.eqb_spec k' k) as [-> | ne]; [| auto].
    exfalso. apply negb_true_iff in Hk.
    assert (Hex : existsb (String.eqb k) (map fst r) = true).
    { apply existsb_exists. exists k. split; [| apply String.eqb_refl].
      change k with (fst (k, c)). now apply in_map. }
    congruence.
Qed.

Lemma resolve_app n a b :
  resolve n (a ++ b)
  = match resolve n a with Some m => resolve m b | None => None end.
Proof.
  revert n. induction a as [| k r IH]; intros n; simpl; [reflexivity |].
  destruct n as [| listable listing |]; try reflexivity.
  destruct (child k listing); [apply IH | reflexivity].
Qed.

Lemma resolve_child top names listable listing k c :
  resolve top names = Some (Dir listable listing) ->
  distinct (map fst listing) = true ->
  In (k, c) listing ->
  resolve top (names ++ [k]) = Some c.
Proof.
  intros Hr Hd Hin. rewrite resolve_app, Hr. simpl.
  now rewrite (child_In _ _ _ Hd Hin).
Qed.

Section FaultFreeWalk.

Variables (E : env) (dirPath root : string) (top : node).
Hypothesis Hsource : source E = Some top.


Lemma run_all_as_planned names l :
  Forall (fun kc => walk_as_planned E dirPath root (snd kc) (names ++ [fst kc])) l ->
  forall s z,
    output s = Some z ->
    let files := flat_map (fun kc => plan (snd kc) (names ++ [fst kc])) l in
    (forallb (fun kc => fault_free E (snd kc) (names ++ [fst kc])) l = true ->
     run_all (visits (walkFn E dirPath) (Filepath.Path root names) l) s
     = (WNil, advanced s z (map (planned (Separator E)) files) (map (announced (Separator E)) files)))
    /\ (forallb (fun kc => fault_free E (snd kc) (names ++ [fst kc])) l = false ->
        exists e, fst (run_all (visits (walkFn E dirPath) (Filepath.Path root names) l) s) = WErr e).
Proof.
  induction 1 as [| [k c] r Hc _ IH]; intros s z Hout; cbv zeta; simpl.
  - split; [intros _ | discriminate]. now rewrite advanced_nil.
  - destruct (Hc s z Hout) as [Hok Hko]. simpl in Hok, Hko.
    change (Filepath.Join (Filepath.Path root names) k)
      with (Filepath.Path root (names ++ [k])).
    destruct (fault_free E c (names ++ [k])) eqn:Hff; simpl.
    + rewrite (Hok eq_refl).
      set (a1 := map (planned (Separator E)) (plan c (names ++ [k]))).
      set (m1 := map (announced (Separator E)) (plan c (names ++ [k]))).
      destruct (IH (advanced s z a1 m1) (Zip (entries z ++ a1) (finalized z)) eq_refl)
        as [Hok' Hko'].
      split; intros Hall.
      * rewrite (Hok' Hall), advanced_advanced.
        unfold a1, m1. now rewrite !map_app.
      * exact (Hko' Hall).
    + split; [discriminate | intros _].
      destruct (Hko eq_refl) as [e He].
      destruct (walk (walkFn E dirPath) c (Filepath.Path root (names ++ [k])) s) as [r0 s0].
      simpl in He. subst r0. now exists e.
Qed.

Lemma forallb_perm {A} (p : A -> bool) l1 l2 :
  Permutation l1 l2 -> forallb p l1 = forallb p l2.
Proof.
  induction 1; simpl; try congruence.
  - now rewrite !andb_assoc, (andb_comm (p y)).
Qed.

Lemma walk_planned n :
  forall names,
    resolve top names = Some n ->
    well_formed (Separator E) n = true ->
    names <> [] \/ IsDir n = true ->
    walk_as_planned E dirPath root n names.
Proof.
  induction n as [data flt | | listable listing IH] using node_ind';
    intros names Hres Hwf Hnames s z Hout.
  - (* a file *)
    destruct Hnames as [Hne | Hd]; [| discriminate].
    unfold walk. simpl.
    destruct (named_mimetype names) eqn:Hm; simpl.
    + split; [intros _ | discriminate].
      rewrite walkFn_mimetype by (now rewrite Base_named_mimetype).
      now rewrite advanced_nil.
    + destruct (walkFn_file E dirPath (Filepath.Path root names) top data flt s z
                  Hsource Hres Hout)
        as [Hok Hko].
      { now rewrite Base_named_mimetype. }
      split; intros Hff.
      * now rewrite (Hok Hff).
      * exact (Hko Hff).
  - (* a name that cannot be stat-ed *)
    split; [discriminate | intros _].
    unfold walk. rewrite walkFn_err. now eexists.
  - (* a directory *)
    rewrite walk_Dir, plan_Dir. simpl fault_free.
    simpl in Hwf. apply andb_prop in Hwf as [Hdist Hwf].
    rewrite forallb_forall in Hwf.
    destruct listable; cbv zeta.
    + rewrite walkFn_dir. cbv beta iota. rewrite andb_true_l.
      rewrite (forallb_perm _ _ _ (Permutation_sym (sort_by_name_perm listing))).
      apply run_all_as_planned; [| exact Hout].
      rewrite Forall_forall. intros [k c] Hin. simpl.
      apply (proj1 (in_sort_by_name _ _)) in Hin.
      rewrite Forall_forall in IH.
      apply (IH (k, c) Hin).
      * eapply resolve_child; eassumption.
      * specialize (Hwf _ Hin). simpl in Hwf. now apply andb_prop in Hwf.
      * left. destruct names; discriminate.
    + split; [discriminate | intros _].
      rewrite walkFn_err. cbv beta iota. now eexists.
Qed.

End FaultFreeWalk.

(** *** The plan and the files of the tree *)

Lemma filter_flat_map {A B} (p : B -> bool) (f : A -> list B) l :
  filter p (flat_map f l) = flat_map (fun x => filter p (f x)) l.
Proof.
  induction l as [| x r IH]; simpl; [reflexivity |].
  now rewrite filter_app, IH.
Qed.

Lemma flat_map_perm_pointwise {A B} (f g : A -> list B) l :
  Forall (fun x => Permutation (f x) (g x)) l ->
  Permutation (flat_map f l) (flat_map g l).
Proof.
  induction 1; simpl; [constructor | now apply Permutation_app].
Qed.

(** The walk adds every regular file that is not named [mimetype],
    once. *)
Lemma plan_perm n :
  forall names, Permutation (plan n names) (filter kept (files_of n names)).
Proof.
  induction n as [data flt | | listable listing IH] using node_ind'; intros names.
  - simpl. unfold kept. simpl. destruct (named_mimetype names); simpl; constructor.
    constructor.
  - constructor.
  - rewrite plan_Dir. simpl files_of. rewrite filter_flat_map.
    eapply perm_trans.
    + apply Permutation_flat_map, sort_by_name_perm.
    + apply flat_map_perm_pointwise.
      eapply Forall_impl; [| exact IH]. intros kc H. apply H.
Qed.

(** The files below a node lie below its names. *)
Lemma files_of_below n :
  forall names f,
    In f (files_of n names) ->
    exists q, fst f = names ++ q /\ (IsDir n = true -> q <> []).
Proof.
  induction n as [data flt | | listable listing IH] using node_ind';
    intros names f Hin; simpl in Hin.
  - destruct Hin as [<- | []]. exists []. simpl. rewrite app_nil_r.
    split; [reflexivity | discriminate].
  - contradiction.
  - apply in_flat_map in Hin as ([k c] & Hkc & Hin). simpl in Hin.
    rewrite Forall_forall in IH.
    destruct (IH _ Hkc _ _ Hin) as (q & Hq & _).
    exists (k :: q). rewrite Hq, <- app_assoc. simpl.
    split; [reflexivity | discriminate].
Qed.

(** In a well-formed tree no name on the way to a file contains the
    separator. *)
Lemma files_of_names sep n :
  forall names f,
    well_formed sep n = true ->
    Forall (fun k => occurs sep k = false) names ->
    In f (files_of n names) ->
    Forall (fun k => occurs sep k = false) (fst f).
Proof.
  induction n as [data flt | | listable listing IH] using node_ind';
    intros names f Hwf Hnames Hin; simpl in Hin.
  - destruct Hin as [<- | []]. exact Hnames.
  - contradiction.
  - apply in_flat_map in Hin as ([k c] & Hkc & Hin). simpl in Hin.
    simpl in Hwf. apply andb_prop in Hwf as [_ Hwf].
    rewrite forallb_forall in Hwf. specialize (Hwf _ Hkc). simpl in Hwf.
    apply andb_prop in Hwf as [Hk Hc]. apply negb_true_iff in Hk.
    rewrite Forall_forall in IH.
    apply (IH _ Hkc (names ++ [k])); auto.
    apply Forall_app. split; [exact Hnames | now constructor].
Qed.

(** *** Relative names with forward slashes *)

Lemma ReplaceAll_append old new a b :
  Filepath.ReplaceAll old new (a ++ b)
  = (Filepath.ReplaceAll old new a ++ Filepath.ReplaceAll old new b)%string.
Proof.
  induction a as [| c r IH]; simpl; [reflexivity | now rewrite IH].
Qed.

Lemma ReplaceAll_absent old new a :
  occurs old a = false -> Filepath.ReplaceAll old new a = a.
Proof.
  induction a as [| c r IH]; simpl; [reflexivity |].
  intros H. apply orb_false_iff in H as [Hc Hr].
  now rewrite Hc, IH.
Qed.

Lemma ReplaceAll_concat sep names :
  Forall (fun k => occurs sep k = false) names ->
  Filepath.ReplaceAll sep "/" (String.concat (String sep EmptyString) names)
  = String.concat "/" names.
Proof.
  induction 1 as [| k r Hk Hr IH]; simpl; [reflexivity |].
  destruct r as [| k' r'].
  - now apply ReplaceAll_absent.
  - rewrite ReplaceAll_append, (ReplaceAll_absent _ _ _ Hk).
    simpl. rewrite Ascii.eqb_refl. f_equal. f_equal. exact IH.
Qed.

(** The name of an entry is the relative path with forward slashes. *)
Lemma rel_names_slash sep names :
  names <> [] ->
  Forall (fun k => occurs sep k = false) names ->
  rel_names sep names = slash_path names.
Proof.
  intros Hne Hnames. unfold rel_names, Filepath.ToSlash, Filepath.Rel, slash_path.
  simpl. destruct names as [| k r]; [congruence |].
  destruct (Ascii.eqb_spec sep "/") as [-> | ne].
  - reflexivity.
  - now apply ReplaceAll_concat.
Qed.

Lemma rel_names_files sep listable listing f :
  well_formed sep (Dir listable listing) = true ->
  In f (files_of (Dir listable listing) []) ->
  rel_names sep (fst f) = slash_path (fst f).
Proof.
  intros Hwf Hin. apply rel_names_slash.
  - destruct (files_of_below _ _ _ Hin) as (q & -> & Hq). simpl. now apply Hq.
  - eapply files_of_names; eauto.
Qed.

Lemma in_plan n names f : In f (plan n names) -> In f (files_of n names) /\ kept f = true.
Proof.
  intros Hin. apply (Permutation_in _ (plan_perm n names)) in Hin.
  now apply filter_In in Hin.
Qed.

Lemma planned_deflated sep listable listing :
  well_formed sep (Dir listable listing) = true ->
  map (planned sep) (plan (Dir listable listing) [])
  = map deflated (plan (Dir listable listing) []).
Proof.
  intros Hwf. apply map_ext_in. intros f Hin.
  apply in_plan in Hin as [Hin _].
  unfold planned, deflated. now rewrite (rel_names_files _ _ _ _ Hwf Hin).
Qed.

(** *** The run of [createXLSXFromDir] on a directory *)

Arguments add_mimetype : simpl never.

Lemma createXLSXFromDir_Dir E dirPath xlsxPath listable listing s :
  source E = Some (Dir listable listing) ->
  create_fails E = false ->
  createXLSXFromDir E dirPath xlsxPath s
  = match add_mimetype E (Filepath.Path dirPath ["mimetype"]) (started dirPath listing s) with
    | (Return r, s2) => (r, finish s s2)
    | (Next _, s2) =>
        match Walk (walkFn E dirPath) (source E) dirPath s2 with
        | (WNil, s3) =>
            (Nil, finish s (say (Success (Filepath.BaseString (Separator E) xlsxPath)) s3))
        | (WErr e, s3) => (Err (WalkFailed dirPath e), finish s s3)
        | (WPanic, s3) => (NilDereference, finish s s3)
        end
    end.
Proof.
  intros Hsrc Hcreate.
  unfold createXLSXFromDir, started, greeting, finish, say.
  unfold func, bind, pure, return_, call, defer, print, zip_NewWriter, os_Stat, os_Create.
  rewrite Hsrc, Hcreate. simpl.
  destruct (child "[Content_Types].xml" listing) as [[| |] |]; simpl;
    rewrite <- ?app_assoc; simpl;
    (destruct (add_mimetype _ _ _) as [[[] | r] s2]; simpl; [| reflexivity]);
    destruct (Walk _ _ _ s2) as [[| e |] s3]; reflexivity.
Qed.

Lemma is_open_In h s : In h (opened s) -> is_open h s = true.
Proof.
  intros Hin. unfold is_open. destruct (in_dec handle_eq_dec h (opened s)); tauto.
Qed.

Lemma close_source p out op df so :
  close (SourceFile p) (State out (SourceFile p :: op) df so) = State out op df so.
Proof.
  unfold close, set_opened. simpl. close_self. destruct out; reflexivity.
Qed.

(** When the function is left with the closes of the archive writer
    and of the output file pending (and at most that of the mimetype
    file before them), every handle it opened is closed, the archive
    writer is closed before the output file, and the archive is
    flushed. *)
Lemma finish_pending s0 s hs z mimetypePath :
  deferred s = hs ++ [ZipWriter; OutputFile] ->
  opened s = hs ++ ZipWriter :: OutputFile :: opened s0 ->
  hs = [] \/ hs = [SourceFile mimetypePath] ->
  output s = Some z ->
  finish s0 s
  = State (Some (Zip (entries z) true)) (opened s0) (deferred s0) (stdout s).
Proof.
  destruct s as [out op df so]. simpl. intros -> -> Hhs ->.
  unfold finish, set_deferred.
  destruct Hhs as [-> | ->].
  - reflexivity.
  - cbn [app run_deferred deferred]. rewrite close_source. reflexivity.
Qed.

(** *** The [mimetype] entry *)

(** However it ends, the statement leaves the archive open, appends
    at most the [mimetype] entry, and opens at most the mimetype file,
    whose close is then pending. *)
Lemma add_mimetype_pending E mimetypePath s z :
  output s = Some z ->
  exists hs added,
    let s' := snd (add_mimetype E mimetypePath s) in
    deferred s' = hs ++ deferred s
    /\ opened s' = hs ++ opened s
    /\ output s' = Some (Zip (entries z ++ added) (finalized z))
    /\ (hs = [] \/ hs = [SourceFile mimetypePath])
    /\ (added = [] \/ exists data, added = [Entry "mimetype" Store data]).
Proof.
  destruct s as [out op df so], z as [es fin]. simpl. intros ->.
  unfold add_mimetype. run_go.
  repeat (split_match; simpl in * ).
  all: first
    [ solve [ exists [], []; simpl; rewrite ?app_nil_r; repeat split; auto ]
    | solve [ exists []; eexists; simpl; rewrite ?write_last_app; simpl;
              repeat split; eauto ]
    | solve [ exists [SourceFile mimetypePath]; eexists; simpl;
              rewrite ?write_last_app; simpl; repeat split; eauto ] ].
Qed.

(** It returns one of its three errors, or falls through. *)
Lemma add_mimetype_result E mimetypePath s :
  match fst (add_mimetype E mimetypePath s) with
  | Next _ => True
  | Return r =>
      r = Err MimetypeHeaderFailed \/ r = Err MimetypeOpenFailed
      \/ r = Err MimetypeCopyFailed
  end.
Proof.
  destruct s as [out op df so].
  unfold add_mimetype. run_go.
  repeat (split_match; simpl in * ); auto.
Qed.

(** No [mimetype] under the root: a warning, and nothing else. *)
Lemma add_mimetype_absent E dirPath listable listing s :
  source E = Some (Dir listable listing) ->
  child "mimetype" listing = None ->
  add_mimetype E (Filepath.Path dirPath ["mimetype"]) s = (Next tt, say WarnNoMimetype s).
Proof.
  intros Hsrc Hchild. destruct s as [out op df so].
  unfold add_mimetype. run_go. rewrite Hsrc. simpl. rewrite Hchild. reflexivity.
Qed.

(** A readable regular [mimetype] under the root: its bytes go into a
    Store entry named [mimetype]. *)
Lemma add_mimetype_healthy E dirPath listable listing data s z :
  source E = Some (Dir listable listing) ->
  child "mimetype" listing = Some (File data Healthy) ->
  header_fails E "mimetype" = false ->
  write_fails E "mimetype" = false ->
  output s = Some z ->
  let mimetypePath := Filepath.Path dirPath ["mimetype"] in
  add_mimetype E mimetypePath s
  = (Next tt,
     State (Some (Zip (entries z ++ [Entry "mimetype" Store data]) (finalized z)))
           (SourceFile mimetypePath :: opened s)
           (SourceFile mimetypePath :: deferred s)
           (stdout s ++ [AddingMimetype])).
Proof.
  intros Hsrc Hchild Hh Hw Hout. destruct s as [out op df so]. simpl in Hout. subst out.
  unfold add_mimetype. run_go. rewrite Hsrc. simpl. rewrite Hchild. simpl.
  rewrite Hh. simpl. rewrite Hw. simpl. now rewrite write_last_app.
Qed.

(** The statement falls through exactly when it meets no fault. *)
Lemma add_mimetype_next E dirPath listable listing s z :
  source E = Some (Dir listable listing) ->
  output s = Some z ->
  (exists u, fst (add_mimetype E (Filepath.Path dirPath ["mimetype"]) s) = Next u)
  <-> mimetype_ok E listing = true.
Proof.
  intros Hsrc Hout. destruct s as [out op df so]. simpl in Hout. subst out.
  unfold add_mimetype, mimetype_ok. run_go. rewrite Hsrc. simpl.
  destruct (child "mimetype" listing) as [[data [] | l' es' |] |]; simpl;
    repeat (split_match; simpl in * );
    split; intros H; try discriminate; eauto;
    try (destruct H as [u H]; discriminate).
Qed.

(** *** Every run on a directory *)

Arguments finish : simpl never.

Lemma Walk_source E dirPath top s :
  source E = Some top ->
  Walk (walkFn E dirPath) (source E) dirPath s
  = walk (walkFn E dirPath) top (Filepath.Path dirPath []) s.
Proof. intros ->. reflexivity. Qed.

(** Once the output file is created, whatever fails later: the file is
    there with the entries written so far, flushed; the handles are
    closed; the entries are the [mimetype] entry, if it was begun, and
    then Deflate entries made from regular files; the function does
    not panic, and an error of the walk comes wrapped. *)
Lemma run_on_directory E dirPath xlsxPath listable listing s :
  source E = Some (Dir listable listing) ->
  create_fails E = false ->
  let r := fst (createXLSXFromDir E dirPath xlsxPath s) in
  let s' := snd (createXLSXFromDir E dirPath xlsxPath s) in
  exists first added,
    output s' = Some (Zip (first ++ added) true)
    /\ opened s' = opened s
    /\ deferred s' = deferred s
    /\ (first = [] \/ exists data, first = [Entry "mimetype" Store data])
    /\ (child "mimetype" listing = None -> first = [])
    /\ (forall data,
          child "mimetype" listing = Some (File data Healthy) ->
          header_fails E "mimetype" = false ->
          write_fails E "mimetype" = false ->
          first = [Entry "mimetype" Store data])
    /\ Forall (made_from (Separator E) (Dir listable listing) []) added
    /\ match r with
       | Nil => True
       | Err e =>
           (added = []
            /\ (e = MimetypeHeaderFailed \/ e = MimetypeOpenFailed
                \/ e = MimetypeCopyFailed))
           \/ exists cause, e = WalkFailed dirPath cause
       | NilDereference => False
       end.
Proof.
  intros Hsrc Hcreate. cbv zeta.
  rewrite (createXLSXFromDir_Dir _ _ _ _ _ _ Hsrc Hcreate).
  set (mp := Filepath.Path dirPath ["mimetype"]).
  set (s1 := started dirPath listing s).
  destruct (add_mimetype_pending E mp s1 (Zip [] false) eq_refl)
    as (hs & first & Hdf & Hop & Hout & Hhs & Hfirst).
  cbv zeta in Hdf, Hop, Hout. simpl in Hdf, Hop, Hout.
  assert (Hnone : child "mimetype" listing = None -> first = []).
  { intros Hc. unfold mp in Hout.
    rewrite (add_mimetype_absent _ _ _ _ _ Hsrc Hc) in Hout. simpl in Hout.
    injection Hout as Hout. symmetry; exact Hout. }
  assert (Hsome : forall data,
             child "mimetype" listing = Some (File data Healthy) ->
             header_fails E "mimetype" = false ->
             write_fails E "mimetype" = false ->
             first = [Entry "mimetype" Store data]).
  { intros data Hc Hh Hw. unfold mp in Hout.
    rewrite (add_mimetype_healthy _ dirPath _ _ _ s1 _ Hsrc Hc Hh Hw eq_refl) in Hout.
    simpl in Hout. injection Hout as Hout. symmetry; exact Hout. }
  pose proof (add_mimetype_result E mp s1) as Hres.
  destruct (add_mimetype E mp s1) as [[[] | r] s2]; cbn [fst snd] in *.
  - (* the walk *)
    rewrite (Walk_source _ _ _ _ Hsrc).
    destruct (walk_extends E dirPath dirPath (Dir listable listing) [] s2
                (or_intror eq_refl)) as (added & Hext & Hadded & Hnp).
    destruct Hext as (Hop' & Hdf' & Hout'). rewrite Hout in Hout'. simpl in Hout'.
    destruct (walk (walkFn E dirPath) (Dir listable listing) (Filepath.Path dirPath []) s2)
      as [[| e |] s3]; cbn [fst snd] in *; [| | congruence].
    + exists first, added.
      rewrite (finish_pending s _ hs (Zip (first ++ added) false) mp);
        [| simpl; congruence ..| assumption | assumption].
      simpl. repeat split; auto.
    + exists first, added.
      rewrite (finish_pending s _ hs (Zip (first ++ added) false) mp);
        [| congruence ..| assumption | assumption].
      simpl. repeat split; eauto 10.
  - (* the mimetype statement returned *)
    exists first, [].
    rewrite (finish_pending s _ hs (Zip first false) mp);
      [| congruence ..| assumption | assumption].
    simpl. rewrite app_nil_r.
    repeat split; auto.
    destruct Hres as [-> | [-> | ->]]; auto.
    all: left; auto.
Qed.

(** *** A run that meets no fault, and a run that does *)

Lemma run_sound E dirPath xlsxPath listable listing s :
  source E = Some (Dir listable listing) ->
  create_fails E = false ->
  well_formed (Separator E) (Dir listable listing) = true ->
  sound E listable listing = true ->
  let files := plan (Dir listable listing) [] in
  createXLSXFromDir E dirPath xlsxPath s
  = (Nil,
     State (Some (Zip (mimetype_entry listing ++ map (planned (Separator E)) files) true))
           (opened s) (deferred s)
           (stdout s ++ greeting dirPath listing ++ [mimetype_line listing]
              ++ map (announced (Separator E)) files
              ++ [Success (Filepath.BaseString (Separator E) xlsxPath)])).
Proof.
  intros Hsrc Hcreate Hwf Hsound. cbv zeta.
  apply andb_prop in Hsound as [Hmime Hff].
  rewrite (createXLSXFromDir_Dir _ _ _ _ _ _ Hsrc Hcreate).
  set (mp := Filepath.Path dirPath ["mimetype"]).
  unfold mimetype_ok in Hmime. unfold mimetype_entry, mimetype_line.
  destruct (child "mimetype" listing) as [[data [] | l' es' |] |] eqn:Hchild;
    try discriminate.
  - (* a mimetype file *)
    apply andb_prop in Hmime as [Hh Hw]. apply negb_true_iff in Hh, Hw.
    unfold mp.
    rewrite (add_mimetype_healthy E dirPath listable listing data
               (started dirPath listing s) (Zip [] false) Hsrc Hchild Hh Hw eq_refl).
    cbv zeta. rewrite (Walk_source _ _ _ _ Hsrc).
    match goal with |- context [walk _ _ _ ?st] => set (s2 := st) end.
    destruct (walk_planned E dirPath dirPath _ Hsrc (Dir listable listing) []
                eq_refl Hwf (or_intror eq_refl) s2 _ eq_refl) as [Hok _].
    rewrite (Hok Hff).
    erewrite (finish_pending s _ [SourceFile mp] _ mp);
      [| reflexivity | reflexivity | auto | reflexivity].
    unfold advanced, say, started, s2. simpl.
    now rewrite <- !app_assoc.
  - (* no mimetype file *)
    unfold mp. rewrite (add_mimetype_absent _ _ _ _ _ Hsrc Hchild).
    rewrite (Walk_source _ _ _ _ Hsrc).
    match goal with |- context [walk _ _ _ ?st] => set (s2 := st) end.
    destruct (walk_planned E dirPath dirPath _ Hsrc (Dir listable listing) []
                eq_refl Hwf (or_intror eq_refl) s2 _ eq_refl) as [Hok _].
    rewrite (Hok Hff).
    erewrite (finish_pending s _ [] _ mp);
      [| reflexivity | reflexivity | auto | reflexivity].
    unfold advanced, say, started, s2. simpl.
    now rewrite <- !app_assoc.
Qed.

Lemma run_unsound E dirPath xlsxPath listable listing s :
  source E = Some (Dir listable listing) ->
  create_fails E = false ->
  well_formed (Separator E) (Dir listable listing) = true ->
  sound E listable listing = false ->
  exists e, fst (createXLSXFromDir E dirPath xlsxPath s) = Err e.
Proof.
  intros Hsrc Hcreate Hwf Hsound.
  rewrite (createXLSXFromDir_Dir _ _ _ _ _ _ Hsrc Hcreate).
  set (mp := Filepath.Path dirPath ["mimetype"]).
  set (s1 := started dirPath listing s).
  pose proof (add_mimetype_next E dirPath _ _ s1 _ Hsrc eq_refl) as Hnext.
  pose proof (add_mimetype_result E mp s1) as Hres.
  destruct (add_mimetype_pending E mp s1 _ eq_refl)
    as (hs & first & _ & _ & Hout & _ & _).
  fold mp in Hnext.
  destruct (add_mimetype E mp s1) as [[[] | r] s2]; cbn [fst snd] in *.
  - assert (Hmime : mimetype_ok E listing = true) by (apply Hnext; eauto).
    unfold sound in Hsound. rewrite Hmime in Hsound. simpl in Hsound.
    rewrite (Walk_source _ _ _ _ Hsrc).
    destruct (walk_planned E dirPath dirPath _ Hsrc (Dir listable listing) []
                eq_refl Hwf (or_intror eq_refl) s2 _ Hout) as [_ Hko].
    destruct (Hko Hsound) as [e He].
    destruct (walk _ _ _ s2) as [r3 s3]. simpl in He. subst r3. cbn [fst]. eauto.
  - destruct Hres as [-> | [-> | ->]]; eauto.
Qed.

(** *** A failing walk stops at once *)

Lemma run_all_stops l :
  forall s e s',
    run_all l s = (WErr e, s') ->
    exists v s0, In v l /\ snd v s0 = (WErr e, s').
Proof.
  induction l as [| [k v] r IH]; intros s e s' H; simpl in H; [discriminate |].
  destruct (v s) as [[| e0 |] s1] eqn:Hv.
  - destruct (IH _ _ _ H) as (v' & s0 & Hin & Hv').
    exists v', s0. split; [now right | exact Hv'].
  - inversion H; subst. exists (k, v), s. split; [now left | exact Hv].
  - discriminate.
Qed.

(** The error a walk returns is the error one call of the callback
    returned, and the state is the one that call left: nothing ran
    after it. *)
Lemma walk_stops fn n :
  forall path s e s',
    walk fn n path s = (WErr e, s') ->
    exists p info err s0, fn p info err s0 = (WErr e, s').
Proof.
  induction n as [data flt | | listable listing IH] using node_ind';
    intros path s e s' H.
  - unfold walk in H. eauto.
  - unfold walk in H. eauto.
  - rewrite walk_Dir in H. cbv zeta in H.
    destruct (fn path (Some (Dir listable listing))
                (if listable then None else Some (WalkIO path)) s)
      as [[| e0 |] s1] eqn:Hfn.
    + destruct listable.
      * apply run_all_stops in H as ([k v] & s0 & Hin & Hv).
        unfold visits in Hin. apply in_map_iff in Hin as ([k' c] & Heq & Hin).
        inversion Heq; subst. simpl in Hv.
        apply (proj1 (in_sort_by_name _ _)) in Hin.
        rewrite Forall_forall in IH. exact (IH _ Hin _ _ _ _ Hv).
      * discriminate.
    + destruct listable; inversion H; subst; eauto.
    + destruct listable; discriminate.
Qed.

(** *** Two listings of one directory state *)

Lemma distinct_NoDup l : distinct l = true <-> NoDup l.
Proof.
  induction l as [| k r IH]; simpl.
  - split; [constructor | reflexivity].
  - rewrite andb_true_iff, negb_true_iff, IH. split.
    + intros [Hk Hr]. constructor; [| exact Hr].
      intros Hin. assert (existsb (String.eqb k) r = true); [| congruence].
      apply existsb_exists. exists k. split; [exact Hin | apply String.eqb_refl].
    + intros H. inversion H as [| ? ? Hk Hr]; subst. split; [| exact Hr].
      destruct (existsb (String.eqb k) r) eqn:Hex; [| reflexivity].
      apply existsb_exists in Hex as (k' & Hin & Heq).
      apply String.eqb_eq in Heq. subst. contradiction.
Qed.

Lemma child_Some_In k c listing : child k listing = Some c -> In (k, c) listing.
Proof.
  induction listing as [| [k' c'] r IH]; simpl; [discriminate |].
  destruct (String.eqb_spec k' k) as [-> | ne].
  - intros H. inversion H. now left.
  - intros H. right. auto.
Qed.

Lemma child_None k listing : child k listing = None -> ~ In k (map fst listing).
Proof.
  induction listing as [| [k' c'] r IH]; simpl; [tauto |].
  destruct (String.eqb_spec k' k) as [-> | ne]; [discriminate |].
  intros H [Heq | Hin]; [congruence | exact (IH H Hin)].
Qed.

Lemma child_perm k l1 l2 :
  distinct (map fst l1) = true -> Permutation l1 l2 -> child k l1 = child k l2.
Proof.
  intros Hd Hp.
  assert (Hd2 : distinct (map fst l2) = true).
  { apply distinct_NoDup. apply distinct_NoDup in Hd.
    eapply Permutation_NoDup; [apply Permutation_map; exact Hp | exact Hd]. }
  destruct (child k l1) as [c |] eqn:H1.
  - apply child_Some_In in H1. symmetry. apply child_In; [exact Hd2 |].
    eapply Permutation_in; eassumption.
  - destruct (child k l2) as [c |] eqn:H2; [| reflexivity].
    apply child_Some_In in H2. apply child_None in H1. exfalso. apply H1.
    apply (in_map fst) in H2. simpl in H2.
    eapply Permutation_in; [apply Permutation_map, Permutation_sym; exact Hp | exact H2].
Qed.

Lemma child_Forall2 k l2 l3 :
  Forall2 (fun a b => fst a = fst b /\ same_tree (snd a) (snd b)) l2 l3 ->
  related (child k l2) (child k l3).
Proof.
  induction 1 as [| [k2 c2] [k3 c3] r2 r3 [Hk Hc] _ IH]; simpl; [exact I |].
  simpl in Hk, Hc. subst k3.
  destruct (String.eqb k2 k); [exact Hc | exact IH].
Qed.

Lemma child_same k listable l1 l3 :
  same_tree (Dir listable l1) (Dir listable l3) ->
  distinct (map fst l1) = true ->
  related (child k l1) (child k l3).
Proof.
  intros H Hd. inversion H as [| | ? ? l2 ? Hp Hf]; subst.
  rewrite (child_perm k _ _ Hd Hp). now apply child_Forall2.
Qed.

Lemma well_formed_child sep listable listing k c :
  well_formed sep (Dir listable listing) = true ->
  In (k, c) listing ->
  well_formed sep c = true.
Proof.
  simpl. intros H Hin. apply andb_prop in H as [_ H].
  rewrite forallb_forall in H. specialize (H _ Hin). simpl in H.
  now apply andb_prop in H.
Qed.

Lemma resolve_same sep names :
  forall a b,
    same_tree a b ->
    well_formed sep a = true ->
    related (resolve a names) (resolve b names).
Proof.
  induction names as [| k r IH]; intros a b Hab Hwf; simpl; [exact Hab |].
  destruct Hab as [data flt | | listable l1 l2 l3 Hp Hf]; try exact I.
  pose proof (child_same k listable l1 l3 (same_dir listable l1 l2 l3 Hp Hf)) as Hc.
  assert (Hd : distinct (map fst l1) = true).
  { simpl in Hwf. now apply andb_prop in Hwf. }
  specialize (Hc Hd).
  destruct (child k l1) as [c1 |] eqn:H1, (child k l3) as [c3 |] eqn:H3;
    simpl in Hc; try contradiction; [| exact I].
  apply IH; [exact Hc |].
  eapply well_formed_child; [exact Hwf | apply (child_Some_In k); exact H1].
Qed.

Lemma same_tree_IsDir a b : same_tree a b -> IsDir a = IsDir b.
Proof. destruct 1; reflexivity. Qed.

(** The callback does the same on both hosts when the path designates
    the same thing in both. *)
Lemma walkFn_same E t1 t2 dirPath path i1 i2 err s :
  related (resolve t1 (Filepath.elems path)) (resolve t2 (Filepath.elems path)) ->
  related i1 i2 ->
  walkFn (with_source E t1) dirPath path i1 err s
  = walkFn (with_source E t2) dirPath path i2 err s.
Proof.
  intros Hres Hinfo. destruct s as [out op df so].
  unfold walkFn. run_go.
  destruct err as [e |]; [reflexivity |].
  destruct i1 as [n1 |], i2 as [n2 |]; simpl in Hinfo; try contradiction;
    [| reflexivity].
  rewrite <- (same_tree_IsDir _ _ Hinfo).
  destruct (IsDir n1); [reflexivity |].
  destruct (Filepath.Base (Separator E) path =? "mimetype"); [reflexivity |].
  destruct (header_fails E _); [reflexivity |].
  destruct out as [z |]; [| reflexivity]. simpl.
  destruct (resolve t1 (Filepath.elems path)) as [m1 |],
           (resolve t2 (Filepath.elems path)) as [m2 |];
    simpl in Hres; try contradiction; [| reflexivity].
  destruct Hres as [data [] | | listable l1 l2 l3 Hp Hf]; reflexivity.
Qed.

Lemma insert_by_name_Forall2 {A B} (R : string * A -> string * B -> Prop) x y l1 l2 :
  (forall a b, R a b -> fst a = fst b) ->
  R x y -> Forall2 R l1 l2 ->
  Forall2 R (insert_by_name x l1) (insert_by_name y l2).
Proof.
  intros HR Hxy H. induction H as [| a b r1 r2 Hab Hr IH]; simpl.
  - constructor; [exact Hxy | constructor].
  - rewrite <- (HR _ _ Hxy), <- (HR _ _ Hab).
    destruct (name_leb (fst x) (fst a)).
    + constructor; [exact Hxy |]. constructor; assumption.
    + constructor; assumption.
Qed.

Lemma sort_by_name_Forall2 {A B} (R : string * A -> string * B -> Prop) l1 l2 :
  (forall a b, R a b -> fst a = fst b) ->
  Forall2 R l1 l2 ->
  Forall2 R (sort_by_name l1) (sort_by_name l2).
Proof.
  intros HR H. induction H; simpl; [constructor |].
  now apply insert_by_name_Forall2.
Qed.

Lemma Forall2_Forall {A B} (P : A -> Prop) (Q : B -> Prop) (R : A -> B -> Prop) l1 l2 :
  Forall P l1 -> Forall Q l2 -> Forall2 R l1 l2 ->
  Forall2 (fun a b => P a /\ Q b /\ R a b) l1 l2.
Proof.
  intros HP HQ H. induction H; [constructor |].
  inversion HP; inversion HQ; subst. constructor; auto.
Qed.

Lemma Forall2_keys {A B} (R : string * A -> string * B -> Prop) l1 l2 :
  (forall a b, R a b -> fst a = fst b) ->
  Forall2 R l1 l2 -> map fst l1 = map fst l2.
Proof.
  intros HR H. induction H; simpl; [reflexivity |].
  f_equal; auto.
Qed.

Lemma run_all_same l1 l2 :
  Forall2 (fun v1 v2 : string * (state -> walkres * state) =>
             forall s, snd v1 s = snd v2 s) l1 l2 ->
  forall s, run_all l1 s = run_all l2 s.
Proof.
  induction 1 as [| [k1 v1] [k2 v2] r1 r2 Hv _ IH]; intros s; simpl; [reflexivity |].
  simpl in Hv. rewrite Hv. destruct (v2 s) as [[| e |] s1]; auto.
Qed.

(** The walk visits two listings of the same state in the same order
    and does the same at every step. *)
Lemma walk_same E t1 t2 dirPath root :
  same_tree t1 t2 ->
  well_formed (Separator E) t1 = true ->
  forall n1 n2 names s,
    same_tree n1 n2 ->
    well_formed (Separator E) n1 = true ->
    resolve t1 names = Some n1 ->
    resolve t2 names = Some n2 ->
    walk (walkFn (with_source E t1) dirPath) n1 (Filepath.Path root names) s
    = walk (walkFn (with_source E t2) dirPath) n2 (Filepath.Path root names) s.
Proof.
  intros Htop Hwftop.
  induction n1 as [data flt | | listable l1 IH] using node_ind';
    intros n2 names s Hsame Hwf Hr1 Hr2.
  - inversion Hsame; subst. unfold walk.
    apply walkFn_same; simpl; [rewrite Hr1, Hr2 |]; constructor.
  - inversion Hsame; subst. unfold walk.
    apply walkFn_same; simpl; [rewrite Hr1, Hr2; constructor | exact I].
  - inversion Hsame as [| | ? ? l2 l3 Hp Hf]; subst.
    rewrite !walk_Dir. cbv zeta.
    rewrite (walkFn_same E t1 t2 dirPath (Filepath.Path root names)
               (Some (Dir listable l1)) (Some (Dir listable l3)));
      [| simpl; rewrite Hr1, Hr2; exact Hsame | exact Hsame].
    destruct (walkFn (with_source E t2) dirPath (Filepath.Path root names)
                (Some (Dir listable l3)) (if listable then None else Some (WalkIO _)) s)
      as [[| e |] s1]; try reflexivity.
    destruct listable; [| reflexivity].
    assert (Hd : distinct (map fst l1) = true).
    { simpl in Hwf. now apply andb_prop in Hwf. }
    rewrite (sort_by_name_unique l1 l2 Hp) by (now apply distinct_NoDup).
    apply run_all_same.
    assert (Hd3 : distinct (map fst l3) = true).
    { rewrite <- (Forall2_keys _ l2 l3 (fun a b H => proj1 H) Hf).
      apply distinct_NoDup. apply distinct_NoDup in Hd.
      eapply Permutation_NoDup; [apply Permutation_map; exact Hp | exact Hd]. }
    assert (Hl2 : Forall (fun a => In a l1) (sort_by_name l2)).
    { rewrite Forall_forall. intros a Ha.
      apply (proj1 (in_sort_by_name _ _)) in Ha.
      eapply Permutation_in; [symmetry; exact Hp | exact Ha]. }
    assert (Hl3 : Forall (fun b => In b l3) (sort_by_name l3)).
    { rewrite Forall_forall. intros b Hb.
      now apply (proj1 (in_sort_by_name _ _)) in Hb. }
    pose proof (sort_by_name_Forall2 _ l2 l3 (fun a b H => proj1 H) Hf) as Hs.
    pose proof (Forall2_Forall _ _ _ _ _ Hl2 Hl3 Hs) as Hall.
    unfold visits. clear Hs Hl2 Hl3 Hf Hp Hsame.
    induction Hall as [| [k c2] [k' c3] r2 r3 (Hin & Hin3 & Hk & Hc) _ IHall]; simpl;
      constructor; [| exact IHall].
    simpl in *. subst k'. intros s'.
    rewrite Forall_forall in IH.
    apply (IH (k, c2) Hin c3 (names ++ [k]) s' Hc).
    + apply (well_formed_child (Separator E) true l1 k c2); [exact Hwf | exact Hin].
    + apply (resolve_child t1 names true l1 k c2 Hr1 Hd Hin).
    + apply (resolve_child t2 names true l3 k c3 Hr2 Hd3 Hin3).
Qed.

Lemma add_mimetype_same E t1 t2 mimetypePath s :
  related (resolve t1 (Filepath.elems mimetypePath))
          (resolve t2 (Filepath.elems mimetypePath)) ->
  add_mimetype (with_source E t1) mimetypePath s
  = add_mimetype (with_source E t2) mimetypePath s.
Proof.
  intros Hres. destruct s as [out op df so].
  unfold add_mimetype. run_go.
  destruct (resolve t1 (Filepath.elems mimetypePath)) as [m1 |],
           (resolve t2 (Filepath.elems mimetypePath)) as [m2 |];
    simpl in Hres; try contradiction; [| reflexivity].
  destruct Hres as [data [] | | listable l1 l2 l3 Hp Hf]; reflexivity.
Qed.

Lemma greeting_same dirPath listable l1 l3 :
  same_tree (Dir listable l1) (Dir listable l3) ->
  distinct (map fst l1) = true ->
  greeting dirPath l1 = greeting dirPath l3.
Proof.
  intros Hsame Hd. unfold greeting.
  pose proof (child_same "[Content_Types].xml" _ _ _ Hsame Hd) as Hc.
  destruct (child "[Content_Types].xml" l1), (child "[Content_Types].xml" l3);
    simpl in Hc; try contradiction; reflexivity.
Qed.

(** When the output file cannot be created the function returns after
    its greeting. *)
Lemma createXLSXFromDir_create_fails E dirPath xlsxPath listable listing s :
  source E = Some (Dir listable listing) ->
  create_fails E = true ->
  createXLSXFromDir E dirPath xlsxPath s
  = (Err CreateOutputFailed,
     State (output s) (opened s) (deferred s) (stdout s ++ greeting dirPath listing)).
Proof.
  intros Hsrc Hcreate. destruct s as [out op df so].
  unfold createXLSXFromDir, greeting.
  unfold func, bind, pure, return_, call, defer, print, zip_NewWriter, os_Stat, os_Create.
  rewrite Hsrc, Hcreate. simpl.
  destruct (child "[Content_Types].xml" listing) as [[| |] |]; simpl;
    rewrite <- ?app_assoc; reflexivity.
Qed.

(** What is at [dirPath] is no directory: the function returns before
    it touches anything. *)
Lemma createXLSXFromDir_no_directory E dirPath xlsxPath s :
  createXLSXFromDir E dirPath xlsxPath s
  = match source E with
    | None => (Err (NotFound dirPath), s)
    | Some Inaccessible => (NilDereference, s)
    | Some (File _ _) => (Err (NotADirectory dirPath), s)
    | Some (Dir _ _) => createXLSXFromDir E dirPath xlsxPath s
    end.
Proof.
  destruct s as [out op df so].
  destruct (source E) as [[data flt | listable listing |] |] eqn:Hsrc;
    try reflexivity;
    unfold createXLSXFromDir, func, bind, pure, return_, os_Stat;
    rewrite Hsrc; reflexivity.
Qed.

(** *** The first fault *)

Lemma visited_Dir listable listing names :
  visited (Dir listable listing) names
  = (names, Dir listable listing)
      :: flat_map (fun kc => visited (snd kc) (names ++ [fst kc])) (sort_by_name listing).
Proof.
  simpl. f_equal.
  rewrite (sort_by_name_map (fun kc => visited (snd kc) (names ++ [fst kc]))).
  rewrite map_map. simpl. symmetry. apply flat_map_concat_map.
Qed.

Arguments visited : simpl never.

Lemma forallb_flat_map {A B} (p : B -> bool) (f : A -> list B) l :
  forallb p (flat_map f l) = forallb (fun x => forallb p (f x)) l.
Proof.
  induction l as [| x r IH]; simpl; [reflexivity |].
  now rewrite forallb_app, IH.
Qed.

Lemma forallb_pointwise {A} (p q : A -> bool) l :
  (forall x, In x l -> p x = q x) -> forallb p l = forallb q l.
Proof.
  induction l as [| x r IH]; simpl; intros H; [reflexivity |].
  rewrite (H x), IH; auto.
Qed.

Lemma flat_map_flat_map {A B C} (g : B -> list C) (f : A -> list B) l :
  flat_map g (flat_map f l) = flat_map (fun x => flat_map g (f x)) l.
Proof.
  induction l as [| x r IH]; simpl; [reflexivity |].
  now rewrite flat_map_app, IH.
Qed.

Lemma flat_map_pointwise {A B} (f g : A -> list B) l :
  (forall x, In x l -> f x = g x) -> flat_map f l = flat_map g l.
Proof.
  induction l as [| x r IH]; simpl; intros H; [reflexivity |].
  rewrite (H x), IH; auto.
Qed.

(** No step of the walk meets a fault exactly when every visit is one
    for which the callback returns nil. *)
Lemma fault_free_visited E n :
  forall names, fault_free E n names = forallb (step_ok E) (visited n names).
Proof.
  induction n as [data flt | | listable listing IH] using node_ind'; intros names.
  - unfold visited. simpl. unfold step_ok, file_ok. simpl. now rewrite andb_true_r.
  - reflexivity.
  - rewrite visited_Dir. simpl fault_free. cbn [forallb].
    unfold step_ok at 1. cbn [snd]. f_equal.
    rewrite forallb_flat_map.
    rewrite (forallb_perm _ _ _ (sort_by_name_perm listing)).
    apply forallb_pointwise. intros [k c] Hin.
    rewrite Forall_forall in IH. apply (IH (k, c) Hin).
Qed.

(** The files the walk adds are those its visits add, in that order. *)
Lemma plan_visited n :
  forall names, plan n names = flat_map added_by (visited n names).
Proof.
  induction n as [data flt | | listable listing IH] using node_ind'; intros names.
  - unfold visited. simpl. unfold added_by. simpl. now rewrite app_nil_r.
  - reflexivity.
  - rewrite plan_Dir, visited_Dir. cbn [flat_map].
    unfold added_by at 1. cbn [snd app].
    rewrite flat_map_flat_map.
    apply flat_map_pointwise. intros [k c] Hin.
    apply (proj1 (in_sort_by_name _ _)) in Hin.
    rewrite Forall_forall in IH. apply (IH (k, c) Hin).
Qed.

Lemma first_failing {A} (p : A -> bool) l :
  forallb p l = false ->
  exists before bad after,
    l = before ++ bad :: after /\ forallb p before = true /\ p bad = false.
Proof.
  induction l as [| x r IH]; simpl; [discriminate |].
  destruct (p x) eqn:Hx; simpl.
  - intros H. destruct (IH H) as (before & bad & after & -> & Hb & Hbad).
    exists (x :: before), bad, after. simpl. rewrite Hx. auto.
  - intros _. exists [], x, r. auto.
Qed.

(** A file that cannot be added: the callback prints its line, begins
    the entry unless that is what fails, and returns the error of the
    call that failed. *)
Lemma walkFn_file_fails E dirPath root names top data flt s z :
  source E = Some top ->
  resolve top names = Some (File data flt) ->
  output s = Some z ->
  names <> [] ->
  named_mimetype names = false ->
  file_ok E names flt = false ->
  walkFn E dirPath (Filepath.Path root names) (Some (File data flt)) None s
  = (WErr (fault_cause E root (names, File data flt)),
     advanced s z (fault_entries E (names, File data flt))
                  (fault_lines E (names, File data flt))).
Proof.
  intros Hsrc Hres Hout Hne Hm Hok.
  rewrite <- (Base_named_mimetype (Separator E) root names Hne) in Hm.
  destruct s as [out op df so], z as [es fin]. simpl in Hout. subst out.
  unfold fault_cause, fault_entries, fault_lines, file_ok in *. cbn [fst snd] in *.
  change (rel_names (Separator E) names)
    with (Filepath.ToSlash (Separator E)
            (Filepath.Rel (Separator E) (Filepath.Path root names))) in *.
  unfold walkFn, advanced.
  run_go. rewrite Hm, Hsrc, Hres.
  destruct (header_fails E _) eqn:Hh; simpl.
  - destruct flt; now rewrite app_nil_r.
  - destruct flt; simpl in *; close_self.
    + apply negb_false_iff in Hok. rewrite Hok.
      simpl. close_self. reflexivity.
    + reflexivity.
    + reflexivity.
Qed.

Section FirstFault.

Variables (E : env) (dirPath root : string) (top : node).
Hypothesis Hsource : source E = Some top.

(** The loop over a directory whose first failing visit lies in one of
    its subtrees. *)
Lemma run_all_first_fault names l :
  Forall (fun kc =>
            walk_as_planned E dirPath root (snd kc) (names ++ [fst kc])
            /\ stops_at_first_fault E dirPath root (snd kc) (names ++ [fst kc])) l ->
  forall s z before bad after,
    output s = Some z ->
    flat_map (fun kc => visited (snd kc) (names ++ [fst kc])) l = before ++ bad :: after ->
    forallb (step_ok E) before = true ->
    step_ok E bad = false ->
    let files := flat_map added_by before in
    run_all (visits (walkFn E dirPath) (Filepath.Path root names) l) s
    = (WErr (fault_cause E root bad),
       advanced s z (map (planned (Separator E)) files ++ fault_entries E bad)
                    (map (announced (Separator E)) files ++ fault_lines E bad)).
Proof.
  induction 1 as [| [k c] r [Hplan Hstop] _ IH];
    intros s z before bad after Hout Hv Hbefore Hbad; cbv zeta.
  - simpl in Hv. destruct before; discriminate.
  - cbn [flat_map fst snd] in Hv, Hplan, Hstop.
    simpl run_all.
    change (Filepath.Join (Filepath.Path root names) k)
      with (Filepath.Path root (names ++ [k])).
    assert (Hcases :
      (exists m, visited c (names ++ [k]) = before ++ bad :: m)
      \/ (exists m, before = visited c (names ++ [k]) ++ m
                    /\ flat_map (fun kc => visited (snd kc) (names ++ [fst kc])) r
                       = m ++ bad :: after)).
    { apply app_eq_app in Hv as [m [[Hc Hrest] | [Hb Hr]]].
      - destruct m as [| x m].
        + right. exists []. rewrite app_nil_r in Hc. rewrite app_nil_r.
          split; [congruence | now symmetry].
        + left. exists m. simpl in Hrest. injection Hrest as -> _. exact Hc.
      - right. exists m. auto. }
    destruct Hcases as [[m Hc] | [m [-> Hr]]].
    + (* the fault is in this subtree *)
      now rewrite (Hstop s z before bad m Hout Hc Hbefore Hbad).
    + (* this subtree is walked whole, the fault comes later *)
      rewrite forallb_app in Hbefore. apply andb_prop in Hbefore as [Hc Hm].
      rewrite <- fault_free_visited in Hc.
      destruct (Hplan s z Hout) as [Hok _]. rewrite (Hok Hc).
      set (a1 := map (planned (Separator E)) (plan c (names ++ [k]))).
      set (m1 := map (announced (Separator E)) (plan c (names ++ [k]))).
      rewrite (IH (advanced s z a1 m1) (Zip (entries z ++ a1) (finalized z))
                 m bad after eq_refl Hr Hm Hbad).
      rewrite advanced_advanced.
      unfold a1, m1. rewrite flat_map_app, <- plan_visited, !map_app, !app_assoc.
      reflexivity.
Qed.

(** The walk returns at the first visit that fails: what the visits
    before it added is in the archive, whole; of the failing visit
    there is what it did before the call that failed; nothing of what
    comes after it is visited. *)
Lemma walk_first_fault n :
  forall names,
    resolve top names = Some n ->
    well_formed (Separator E) n = true ->
    names <> [] \/ IsDir n = true ->
    stops_at_first_fault E dirPath root n names.
Proof.
  induction n as [data flt | | listable listing IH] using node_ind';
    intros names Hres Hwf Hnames s z before bad after Hout Hv Hbefore Hbad; cbv zeta.
  - (* a file *)
    destruct Hnames as [Hne | Hd]; [| discriminate].
    unfold visited in Hv.
    destruct before as [| b [| b' before]]; try discriminate.
    injection Hv as <- _.
    unfold step_ok in Hbad. cbn [fst snd] in Hbad.
    apply orb_false_elim in Hbad as [Hm Hok].
    unfold walk. cbn [flat_map map app].
    exact (walkFn_file_fails E dirPath root names top data flt s z
             Hsource Hres Hout Hne Hm Hok).
  - (* a name that cannot be stat-ed *)
    unfold visited in Hv.
    destruct before as [| b [| b' before]]; try discriminate.
    injection Hv as <- _.
    unfold walk. rewrite walkFn_err. cbn [flat_map map app].
    unfold fault_entries, fault_lines. cbn [snd].
    now rewrite advanced_nil.
  - (* a directory *)
    rewrite visited_Dir in Hv. rewrite walk_Dir.
    destruct before as [| b before].
    + (* that cannot be listed *)
      injection Hv as <- _.
      unfold step_ok in Hbad. cbn [snd] in Hbad. subst listable. cbv zeta.
      rewrite walkFn_err. cbv beta iota. cbn [flat_map map app].
      unfold fault_entries, fault_lines. cbn [snd].
      now rewrite advanced_nil.
    + injection Hv as <- Hv.
      cbn [forallb] in Hbefore. apply andb_prop in Hbefore as [Hl Hbefore].
      unfold step_ok in Hl. cbn [snd] in Hl. subst listable. cbv zeta.
      rewrite walkFn_dir. cbv beta iota.
      cbn [flat_map]. unfold added_by at 1 3. cbn [snd app].
      simpl in Hwf. apply andb_prop in Hwf as [Hdist Hwf].
      rewrite forallb_forall in Hwf.
      apply (run_all_first_fault names (sort_by_name listing)) with (after := after);
        auto.
      rewrite Forall_forall. intros [k c] Hin. cbn [fst snd].
      apply (proj1 (in_sort_by_name _ _)) in Hin.
      assert (Hrc : resolve top (names ++ [k]) = Some c).
      { apply (resolve_child top names true listing k c); assumption. }
      assert (Hwc : well_formed (Separator E) c = true).
      { specialize (Hwf _ Hin). simpl in Hwf. now apply andb_prop in Hwf. }
      assert (Hnc : names ++ [k] <> [] \/ IsDir c = true).
      { left. destruct names; discriminate. }
      split.
      * exact (walk_planned E dirPath root top Hsource c (names ++ [k]) Hrc Hwc Hnc).
      * rewrite Forall_forall in IH. exact (IH (k, c) Hin (names ++ [k]) Hrc Hwc Hnc).
Qed.

End FirstFault.

(** *** A run that meets a fault *)

Lemma mimetype_fault_None E listing :
  mimetype_fault E listing = None <-> mimetype_ok E listing = true.
Proof.
  unfold mimetype_fault, mimetype_ok.
  destruct (child "mimetype" listing) as [[data [] | l' es' |] |];
    destruct (header_fails E "mimetype"), (write_fails E "mimetype"); simpl;
    split; intros H; congruence.
Qed.

(** A fault of the statement that writes the [mimetype] entry: the
    function returns its error before the walk starts. *)
Lemma run_mimetype_fault E dirPath xlsxPath listable listing s e first :
  source E = Some (Dir listable listing) ->
  create_fails E = false ->
  mimetype_fault E listing = Some (e, first) ->
  createXLSXFromDir E dirPath xlsxPath s
  = (Err e,
     State (Some (Zip first true)) (opened s) (deferred s)
           (stdout s ++ greeting dirPath listing ++ [AddingMimetype])).
Proof.
  intros Hsrc Hcreate Hf.
  rewrite (createXLSXFromDir_Dir _ _ _ _ _ _ Hsrc Hcreate).
  set (mp := Filepath.Path dirPath ["mimetype"]).
  unfold mimetype_fault in Hf.
  destruct (child "mimetype" listing) as [n |] eqn:Hchild; [| discriminate].
  unfold add_mimetype, started. run_go. rewrite Hsrc. simpl. rewrite Hchild.
  destruct (header_fails E "mimetype") eqn:Hh.
  - injection Hf as <- <-.
    destruct n as [data [] | l' es' |]; simpl;
      (erewrite (finish_pending s _ [] _ mp);
         [| reflexivity | reflexivity | auto | reflexivity]);
      simpl; now rewrite <- app_assoc.
  - destruct n as [data [] | l' es' |]; simpl; rewrite ?Hh; simpl.
    + destruct (write_fails E "mimetype") eqn:Hw; [| discriminate].
      injection Hf as <- <-. simpl.
      erewrite (finish_pending s _ [SourceFile mp] _ mp);
        [| reflexivity | reflexivity | auto | reflexivity].
      simpl. now rewrite <- app_assoc.
    + injection Hf as <- <-.
      erewrite (finish_pending s _ [] _ mp);
        [| reflexivity | reflexivity | auto | reflexivity].
      simpl. now rewrite <- app_assoc.
    + injection Hf as <- <-.
      erewrite (finish_pending s _ [SourceFile mp] _ mp);
        [| reflexivity | reflexivity | auto | reflexivity].
      simpl. now rewrite <- app_assoc.
    + injection Hf as <- <-.
      erewrite (finish_pending s _ [SourceFile mp] _ mp);
        [| reflexivity | reflexivity | auto | reflexivity].
      simpl. now rewrite <- app_assoc.
    + injection Hf as <- <-.
      erewrite (finish_pending s _ [] _ mp);
        [| reflexivity | reflexivity | auto | reflexivity].
      simpl. now rewrite <- app_assoc.
Qed.

(** A fault during the walk: the function returns the error of the
    first visit that fails, wrapped; the archive holds the [mimetype]
    entry, the files of the visits before that one, whole, and the
    entry the failing visit had begun; nothing else was written or
    printed. *)
Lemma run_first_fault E dirPath xlsxPath listable listing s before bad after :
  source E = Some (Dir listable listing) ->
  create_fails E = false ->
  well_formed (Separator E) (Dir listable listing) = true ->
  mimetype_ok E listing = true ->
  visited (Dir listable listing) [] = before ++ bad :: after ->
  forallb (step_ok E) before = true ->
  step_ok E bad = false ->
  let files := flat_map added_by before in
  createXLSXFromDir E dirPath xlsxPath s
  = (Err (WalkFailed dirPath (fault_cause E dirPath bad)),
     State (Some (Zip (mimetype_entry listing
                         ++ map (planned (Separator E)) files
                         ++ fault_entries E bad) true))
           (opened s) (deferred s)
           (stdout s ++ greeting dirPath listing ++ [mimetype_line listing]
              ++ map (announced (Separator E)) files
              ++ fault_lines E bad)).
Proof.
  intros Hsrc Hcreate Hwf Hmime Hv Hbefore Hbad. cbv zeta.
  rewrite (createXLSXFromDir_Dir _ _ _ _ _ _ Hsrc Hcreate).
  set (mp := Filepath.Path dirPath ["mimetype"]).
  unfold mimetype_ok in Hmime. unfold mimetype_entry, mimetype_line.
  destruct (child "mimetype" listing) as [[data [] | l' es' |] |] eqn:Hchild;
    try discriminate.
  - (* a mimetype file *)
    apply andb_prop in Hmime as [Hh Hw]. apply negb_true_iff in Hh, Hw.
    unfold mp.
    rewrite (add_mimetype_healthy E dirPath listable listing data
               (started dirPath listing s) (Zip [] false) Hsrc Hchild Hh Hw eq_refl).
    cbv zeta. rewrite (Walk_source _ _ _ _ Hsrc).
    match goal with |- context [walk _ _ _ ?st] => set (s2 := st) end.
    rewrite (walk_first_fault E dirPath dirPath _ Hsrc (Dir listable listing) []
               eq_refl Hwf (or_intror eq_refl) s2 _ before bad after eq_refl
               Hv Hbefore Hbad).
    erewrite (finish_pending s _ [SourceFile mp] _ mp);
      [| reflexivity | reflexivity | auto | reflexivity].
    unfold advanced, say, started, s2. simpl.
    now rewrite <- !app_assoc.
  - (* no mimetype file *)
    unfold mp. rewrite (add_mimetype_absent _ _ _ _ _ Hsrc Hchild).
    rewrite (Walk_source _ _ _ _ Hsrc).
    match goal with |- context [walk _ _ _ ?st] => set (s2 := st) end.
    rewrite (walk_first_fault E dirPath dirPath _ Hsrc (Dir listable listing) []
               eq_refl Hwf (or_intror eq_refl) s2 _ before bad after eq_refl
               Hv Hbefore Hbad).
    erewrite (finish_pending s _ [] _ mp);
      [| reflexivity | reflexivity | auto | reflexivity].
    unfold advanced, say, started, s2. simpl.
    now rewrite <- !app_assoc.
Qed.

(** The archive of a run that meets no fault: the [mimetype] entry of
    the root, if there is one, and then one Deflate entry for every
    regular file that is not named [mimetype], with the file's relative
    path in forward slashes and the file's bytes. *)
Corollary archive_of_sound_run E dirPath xlsxPath listable listing s :
  source E = Some (Dir listable listing) ->
  create_fails E = false ->
  well_formed (Separator E) (Dir listable listing) = true ->
  sound E listable listing = true ->
  fst (createXLSXFromDir E dirPath xlsxPath s) = Nil
  /\ exists walked,
      output (snd (createXLSXFromDir E dirPath xlsxPath s))
      = Some (Zip (mimetype_entry listing ++ walked) true)
      /\ Permutation walked
           (map deflated (filter kept (files_of (Dir listable listing) []))).
Proof.
  intros Hsrc Hcreate Hwf Hsound.
  rewrite (run_sound E dirPath xlsxPath listable listing s Hsrc Hcreate Hwf Hsound).
  split; [reflexivity |].
  eexists. split; [reflexivity |].
  rewrite (planned_deflated _ _ _ Hwf).
  apply Permutation_map, plan_perm.
Qed.

(** ** The statements *)

(** C1.  When the source directory has a regular file named [mimetype]
    directly under its root, the archive a successful run produces
    starts with an entry named exactly [mimetype], written in Store
    mode, whose bytes are those of that file. *)
Theorem mimetype_first_and_stored E dirPath xlsxPath listable listing data flt s :
  source E = Some (Dir listable listing) ->
  child "mimetype" listing = Some (File data flt) ->
  fst (createXLSXFromDir E dirPath xlsxPath s) = Nil ->
  exists rest,
    output (snd (createXLSXFromDir E dirPath xlsxPath s))
    = Some (Zip (Entry "mimetype" Store data :: rest) true).
Proof.
  intros Hsrc Hchild Hnil.
  destruct (create_fails E) eqn:Hcreate.
  { rewrite (createXLSXFromDir_create_fails _ _ _ _ _ _ Hsrc Hcreate) in Hnil.
    discriminate. }
  assert (Hok : mimetype_ok E listing = true).
  { apply (add_mimetype_next E dirPath listable listing
             (started dirPath listing s) (Zip [] false) Hsrc eq_refl).
    rewrite (createXLSXFromDir_Dir _ _ _ _ _ _ Hsrc Hcreate) in Hnil.
    pose proof (add_mimetype_result E (Filepath.Path dirPath ["mimetype"])
                  (started dirPath listing s)) as Hres.
    destruct (add_mimetype _ _ _) as [[u | r] s2]; [simpl; eauto |].
    simpl in Hnil, Hres. subst r. destruct Hres as [H | [H | H]]; discriminate. }
  unfold mimetype_ok in Hok. rewrite Hchild in Hok.
  destruct flt; try discriminate.
  apply andb_prop in Hok as [Hh Hw]. apply negb_true_iff in Hh, Hw.
  destruct (run_on_directory E dirPath xlsxPath listable listing s Hsrc Hcreate)
    as (first & added & Hout & _ & _ & _ & _ & Hfirst & _).
  rewrite (Hfirst data Hchild Hh Hw) in Hout.
  exists added. exact Hout.
Qed.

Lemma mimetype_first_and_stored_witness :
  exists rest,
    output (snd (createXLSXFromDir (host "/" (Some workbook)) "in" "out.xlsx" empty_state))
    = Some (Zip (Entry "mimetype" Store [x61; x70; x70] :: rest) true).
Proof.
  eapply (mimetype_first_and_stored (host "/" (Some workbook)) "in" "out.xlsx");
    reflexivity.
Defined.

(** C2, at the input where the code leaves it: a regular file named
    [mimetype] inside a subdirectory is in the source tree, the run
    succeeds, and the archive has no entry for it. *)
Theorem nested_mimetype_has_no_entry :
  let run := createXLSXFromDir (host "/" (Some nested_mimetype)) "in" "out.xlsx" empty_state in
  In (["sub"; "mimetype"], [x6d; x6d]) (files_of nested_mimetype [])
  /\ fst run = Nil
  /\ exists z, output (snd run) = Some z
               /\ forall e, In e (entries z) -> Name e <> "sub/mimetype".
Proof.
  vm_compute. split; [auto |]. split; [reflexivity |].
  eexists. split; [reflexivity |].
  intros e [<- | []]. discriminate.
Qed.

(** C3.  A source path that does not exist makes the function return
    the not-found error, one that is a regular file the
    not-a-directory error, and in both cases nothing was touched: the
    state, and with it the file at the output path, is as before. *)
Theorem bad_source_fails_before_create E dirPath xlsxPath s :
  (source E = None ->
   createXLSXFromDir E dirPath xlsxPath s = (Err (NotFound dirPath), s))
  /\ (forall data flt,
        source E = Some (File data flt) ->
        createXLSXFromDir E dirPath xlsxPath s = (Err (NotADirectory dirPath), s)).
Proof.
  split; [intros Hsrc | intros data flt Hsrc];
    rewrite createXLSXFromDir_no_directory, Hsrc; reflexivity.
Qed.

Lemma bad_source_fails_before_create_witness :
  createXLSXFromDir (host "/" None) "in" "out.xlsx" empty_state
  = (Err (NotFound "in"), empty_state)
  /\ createXLSXFromDir (host "/" (Some (File [x61] Healthy))) "in" "out.xlsx" empty_state
     = (Err (NotADirectory "in"), empty_state).
Proof.
  split.
  - apply (proj1 (bad_source_fails_before_create (host "/" None) "in" "out.xlsx" empty_state)).
    reflexivity.
  - apply (proj2 (bad_source_fails_before_create
                    (host "/" (Some (File [x61] Healthy))) "in" "out.xlsx" empty_state)
             [x61] Healthy).
    reflexivity.
Defined.

(** C4, at the input where the code leaves it: a root [mimetype] and
    exactly three other regular files, one of them named [mimetype] in
    a subdirectory; the run succeeds and the archive has three
    entries, not four. *)
Theorem four_files_three_entries :
  let run := createXLSXFromDir (host "/" (Some four_files)) "in" "out.xlsx" empty_state in
  List.length (files_of four_files []) = 4
  /\ fst run = Nil
  /\ exists z, output (snd run) = Some z /\ List.length (entries z) = 3.
Proof.
  vm_compute. split; [reflexivity |]. split; [reflexivity |].
  eexists. split; reflexivity.
Qed.

(** C5.  On a directory, once the output file is created: a fault at
    any step (a directory that cannot be listed, a name that cannot be
    stat-ed, a file that cannot be opened or read, an entry that
    cannot be created or written) makes the function return an error,
    and an error met during the walk comes wrapped with the path of
    the walk.  The function returns at the first call that fails.  If
    that is in the statement that writes the [mimetype] entry, the
    walk does not start.  If it is in the walk, at the first visit
    that fails: the files of the visits before it are in the archive,
    whole, each once; of the failing visit there is the line it
    printed and the entry it had begun, still empty, once; of what the
    walk would have visited after it there is nothing, neither an
    entry nor a line, and no line of success.  The output file stays
    where it is, flushed, with exactly these entries, and the handles
    are as they were. *)
Theorem any_fault_aborts_the_build E dirPath xlsxPath listable listing s :
  source E = Some (Dir listable listing) ->
  create_fails E = false ->
  well_formed (Separator E) (Dir listable listing) = true ->
  let top := Dir listable listing in
  let run := createXLSXFromDir E dirPath xlsxPath s in
  (sound E listable listing = false ->
   (exists e, fst run = Err e)
   /\ (mimetype_fault E listing <> None
       \/ mimetype_fault E listing = None
          /\ exists before bad after,
               visited top [] = before ++ bad :: after
               /\ forallb (step_ok E) before = true
               /\ step_ok E bad = false))
  /\ (forall e, fst run = Err e ->
        e = MimetypeHeaderFailed \/ e = MimetypeOpenFailed \/ e = MimetypeCopyFailed
        \/ exists cause, e = WalkFailed dirPath cause)
  /\ (forall e first,
        mimetype_fault E listing = Some (e, first) ->
        run = (Err e,
               State (Some (Zip first true)) (opened s) (deferred s)
                     (stdout s ++ greeting dirPath listing ++ [AddingMimetype])))
  /\ (forall before bad after,
        mimetype_fault E listing = None ->
        visited top [] = before ++ bad :: after ->
        forallb (step_ok E) before = true ->
        step_ok E bad = false ->
        let files := flat_map added_by before in
        run = (Err (WalkFailed dirPath (fault_cause E dirPath bad)),
               State (Some (Zip (mimetype_entry listing
                                   ++ map (planned (Separator E)) files
                                   ++ fault_entries E bad) true))
                     (opened s) (deferred s)
                     (stdout s ++ greeting dirPath listing ++ [mimetype_line listing]
                        ++ map (announced (Separator E)) files
                        ++ fault_lines E bad))).
Proof.
  intros Hsrc Hcreate Hwf. cbv zeta.
  split; [| split; [| split]].
  - intros Hsound. split; [eapply run_unsound; eassumption |].
    destruct (mimetype_fault E listing) as [f |] eqn:Hf; [left; discriminate | right].
    split; [reflexivity |].
    apply mimetype_fault_None in Hf.
    unfold sound in Hsound. rewrite Hf in Hsound. cbn [andb] in Hsound.
    rewrite fault_free_visited in Hsound.
    exact (first_failing _ _ Hsound).
  - intros e He.
    destruct (run_on_directory E dirPath xlsxPath listable listing s Hsrc Hcreate)
      as (first & added & _ & _ & _ & _ & _ & _ & _ & Hr).
    cbv zeta in Hr. rewrite He in Hr.
    destruct Hr as [[_ [H | [H | H]]] | H]; auto.
  - intros e first Hf.
    exact (run_mimetype_fault E dirPath xlsxPath listable listing s e first
             Hsrc Hcreate Hf).
  - intros before bad after Hf Hv Hbefore Hbad.
    apply mimetype_fault_None in Hf.
    exact (run_first_fault E dirPath xlsxPath listable listing s before bad after
             Hsrc Hcreate Hwf Hf Hv Hbefore Hbad).
Qed.

Lemma any_fault_aborts_the_build_witness :
  createXLSXFromDir (host "/" (Some unreadable_file)) "in" "out.xlsx" empty_state
  = (Err (WalkFailed "in" (OpenFailed (Filepath.Path "in" ["b.txt"]))),
     State (Some (Zip [Entry "a.txt" Deflate [x61]; Entry "b.txt" Deflate []] true))
           [] []
           [WarnNoContentTypes "in"; Rebuilding "in"; WarnNoMimetype;
            Adding "a.txt"; Adding "b.txt"]).
Proof.
  destruct (any_fault_aborts_the_build (host "/" (Some unreadable_file)) "in" "out.xlsx"
              true
              [ ("a.txt", File [x61] Healthy); ("b.txt", File [x62] OpenFails);
                ("c.txt", File [x63] Healthy) ]
              empty_state eq_refl eq_refl eq_refl)
    as (_ & _ & _ & Hwalk).
  rewrite (Hwalk [ ([], unreadable_file); (["a.txt"], File [x61] Healthy) ]
                 (["b.txt"], File [x62] OpenFails)
                 [ (["c.txt"], File [x63] Healthy) ]);
    vm_compute; reflexivity.
Defined.

Lemma child_file_listed k listable listing data flt :
  child k listing = Some (File data flt) ->
  In ([k], data) (files_of (Dir listable listing) []).
Proof.
  intros H. apply child_Some_In in H. simpl.
  apply in_flat_map. exists (k, File data flt). split; [exact H | now left].
Qed.

(** C6.  On a directory whose walk meets no fault: when there is no
    [mimetype] under the root the function warns, returns nil, and the
    archive holds exactly the entries of the files not named
    [mimetype], each once, Deflate, with its bytes; when there is no
    [[Content_Types].xml] it warns and returns nil as well.  Neither
    absence makes it return an error. *)
Theorem missing_marker_or_mimetype_only_warns E dirPath xlsxPath listable listing s :
  source E = Some (Dir listable listing) ->
  create_fails E = false ->
  well_formed (Separator E) (Dir listable listing) = true ->
  fault_free E (Dir listable listing) [] = true ->
  let r := fst (createXLSXFromDir E dirPath xlsxPath s) in
  let s' := snd (createXLSXFromDir E dirPath xlsxPath s) in
  (child "mimetype" listing = None ->
   r = Nil
   /\ In WarnNoMimetype (stdout s')
   /\ exists z,
       output s' = Some z
       /\ Permutation (entries z)
            (map deflated (filter kept (files_of (Dir listable listing) []))))
  /\ (child "[Content_Types].xml" listing = None ->
      mimetype_ok E listing = true ->
      r = Nil /\ In (WarnNoContentTypes dirPath) (stdout s')).
Proof.
  intros Hsrc Hcreate Hwf Hff. cbv zeta. split.
  - intros Hchild.
    assert (Hsound : sound E listable listing = true).
    { unfold sound, mimetype_ok. now rewrite Hchild, Hff. }
    rewrite (run_sound E dirPath xlsxPath listable listing s Hsrc Hcreate Hwf Hsound).
    cbn [fst snd output stdout].
    unfold mimetype_entry, mimetype_line. rewrite Hchild.
    split; [reflexivity |]. split.
    + apply in_or_app. right. apply in_or_app. right. now left.
    + eexists. split; [reflexivity |]. cbn [entries app].
      rewrite (planned_deflated _ _ _ Hwf).
      apply Permutation_map, plan_perm.
  - intros Hchild Hmime.
    assert (Hsound : sound E listable listing = true).
    { unfold sound. now rewrite Hmime, Hff. }
    rewrite (run_sound E dirPath xlsxPath listable listing s Hsrc Hcreate Hwf Hsound).
    cbn [fst snd output stdout].
    split; [reflexivity |].
    apply in_or_app. right. apply in_or_app. left.
    unfold greeting. rewrite Hchild. now left.
Qed.

Lemma missing_marker_or_mimetype_only_warns_witness :
  let E := host "\" (Some loose_files) in
  let r := fst (createXLSXFromDir E "in" "out.xlsx" empty_state) in
  let s' := snd (createXLSXFromDir E "in" "out.xlsx" empty_state) in
  r = Nil
  /\ In WarnNoMimetype (stdout s')
  /\ (exists z,
       output s' = Some z
       /\ Permutation (entries z)
            [ Entry "b.txt" Deflate [x62]; Entry "a/c.txt" Deflate [x63; x63] ])
  /\ In (WarnNoContentTypes "in") (stdout s').
Proof.
  cbv zeta.
  destruct (missing_marker_or_mimetype_only_warns
              (host "\" (Some loose_files)) "in" "out.xlsx" true
              [ ("b.txt", File [x62] Healthy);
                ("a", Dir true [ ("c.txt", File [x63; x63] Healthy) ]) ]
              empty_state eq_refl eq_refl eq_refl eq_refl) as [Hm Hc].
  destruct (Hm eq_refl) as (Hr & Hw & z & Ho & Hp).
  destruct (Hc eq_refl eq_refl) as (_ & Hw').
  split; [exact Hr |]. split; [exact Hw |]. split; [| exact Hw'].
  exists z. split; [exact Ho |].
  vm_compute in Hp. exact Hp.
Defined.

(** C7.  Directories make no archive entries.  The callback leaves the
    state untouched on every directory it is handed; whatever happens,
    each entry the walk appended was made from a regular file of the
    tree; and every entry of the archive of a successful run is the
    entry of a regular file, named after it and holding its bytes. *)
Theorem directories_make_no_entries E dirPath xlsxPath listable listing s :
  source E = Some (Dir listable listing) ->
  create_fails E = false ->
  well_formed (Separator E) (Dir listable listing) = true ->
  let top := Dir listable listing in
  let r := fst (createXLSXFromDir E dirPath xlsxPath s) in
  let s' := snd (createXLSXFromDir E dirPath xlsxPath s) in
  (forall path listable' listing' err s0,
      snd (walkFn E dirPath path (Some (Dir listable' listing')) err s0) = s0)
  /\ (exists first added,
        output s' = Some (Zip (first ++ added) true)
        /\ (first = [] \/ exists data, first = [Entry "mimetype" Store data])
        /\ Forall (fun e => exists f, In f (files_of top [])
                                      /\ Name e = slash_path (fst f)) added)
  /\ (r = Nil ->
      exists z,
        output s' = Some z
        /\ forall e, In e (entries z) ->
             exists f, In f (files_of top [])
                       /\ Name e = slash_path (fst f) /\ Data e = snd f).
Proof.
  intros Hsrc Hcreate Hwf. cbv zeta.
  split; [| split].
  - intros path l' es' [e |] s0; [now rewrite walkFn_err | now rewrite walkFn_dir].
  - destruct (run_on_directory E dirPath xlsxPath listable listing s Hsrc Hcreate)
      as (first & added & Hout & _ & _ & Hfirst & _ & _ & Hadded & _).
    exists first, added. split; [exact Hout |]. split; [exact Hfirst |].
    eapply Forall_impl; [| exact Hadded].
    intros e (_ & f & Hf & _ & Hname).
    exists f. split; [exact Hf |].
    now rewrite Hname, (rel_names_files _ _ _ _ Hwf Hf).
  - intros Hnil.
    destruct (sound E listable listing) eqn:Hsound.
    + rewrite (run_sound E dirPath xlsxPath listable listing s Hsrc Hcreate Hwf Hsound).
      cbn [fst snd output].
      eexists. split; [reflexivity |]. cbn [entries].
      intros e Hin. apply in_app_or in Hin as [Hin | Hin].
      * unfold mimetype_entry in Hin.
        destruct (child "mimetype" listing) as [[data flt | |] |] eqn:Hchild;
          try contradiction.
        destruct Hin as [<- | []].
        exists (["mimetype"], data). split; [| split; reflexivity].
        eapply child_file_listed; eassumption.
      * apply in_map_iff in Hin as (f & <- & Hf).
        apply in_plan in Hf as [Hf _].
        exists f. split; [exact Hf |]. split; [| reflexivity].
        simpl. apply (rel_names_files _ _ _ _ Hwf Hf).
    + destruct (run_unsound E dirPath xlsxPath listable listing s Hsrc Hcreate Hwf Hsound)
        as [e He].
      congruence.
Qed.

Lemma directories_make_no_entries_witness :
  exists z,
    output (snd (createXLSXFromDir (host "/" (Some workbook)) "in" "out.xlsx" empty_state))
    = Some z
    /\ forall e, In e (entries z) ->
         exists f, In f (files_of workbook [])
                   /\ Name e = slash_path (fst f) /\ Data e = snd f.
Proof.
  refine (proj2 (proj2 (directories_make_no_entries
            (host "/" (Some workbook)) "in" "out.xlsx" true _ empty_state
            eq_refl eq_refl eq_refl)) eq_refl).
Defined.

(** C8.  The run is a function of the directory state: two listings of
    the same files with the same bytes, in whatever order the system
    enumerates each directory, give the same result and the same
    archive, entry for entry. *)
Theorem build_is_deterministic E t1 t2 dirPath xlsxPath s :
  same_tree t1 t2 ->
  well_formed (Separator E) t1 = true ->
  createXLSXFromDir (with_source E t1) dirPath xlsxPath s
  = createXLSXFromDir (with_source E t2) dirPath xlsxPath s.
Proof.
  intros Hsame Hwf.
  destruct Hsame as [data flt | | listable l1 l2 l3 Hp Hf]; try reflexivity.
  pose proof (same_dir listable l1 l2 l3 Hp Hf) as Hsame.
  assert (Hd : distinct (map fst l1) = true).
  { simpl in Hwf. now apply andb_prop in Hwf. }
  destruct (create_fails E) eqn:Hcreate.
  - rewrite (createXLSXFromDir_create_fails (with_source E (Dir listable l1))
               dirPath xlsxPath listable l1 s eq_refl Hcreate).
    rewrite (createXLSXFromDir_create_fails (with_source E (Dir listable l3))
               dirPath xlsxPath listable l3 s eq_refl Hcreate).
    now rewrite (greeting_same dirPath listable l1 l3 Hsame Hd).
  - rewrite (createXLSXFromDir_Dir (with_source E (Dir listable l1))
               dirPath xlsxPath listable l1 s eq_refl Hcreate).
    rewrite (createXLSXFromDir_Dir (with_source E (Dir listable l3))
               dirPath xlsxPath listable l3 s eq_refl Hcreate).
    unfold started. rewrite (greeting_same dirPath listable l1 l3 Hsame Hd).
    rewrite (add_mimetype_same E (Dir listable l1) (Dir listable l3));
      [| apply (resolve_same (Separator E)); assumption].
    destruct (add_mimetype _ _ _) as [[u | r] s2]; [| reflexivity].
    rewrite (Walk_source (with_source E (Dir listable l1)) dirPath _ s2 eq_refl).
    rewrite (Walk_source (with_source E (Dir listable l3)) dirPath _ s2 eq_refl).
    rewrite (walk_same E (Dir listable l1) (Dir listable l3) dirPath dirPath Hsame Hwf
               (Dir listable l1) (Dir listable l3) [] s2 Hsame Hwf eq_refl eq_refl).
    reflexivity.
Qed.

Lemma workbook_same_state : same_tree workbook workbook_relisted.
Proof.
  unfold workbook, workbook_relisted.
  eapply same_dir.
  - apply perm_swap.
  - repeat constructor; simpl.
    eapply same_dir; [apply perm_swap | repeat constructor].
Qed.

Lemma build_is_deterministic_witness :
  createXLSXFromDir (with_source (host "/" None) workbook) "in" "out.xlsx" empty_state
  = createXLSXFromDir (with_source (host "/" None) workbook_relisted) "in" "out.xlsx"
      empty_state.
Proof.
  apply (build_is_deterministic (host "/" None) workbook workbook_relisted);
    [exact workbook_same_state | reflexivity].
Defined.

(** C9.  On every path out of the function the handles it opened are
    closed and no close stays pending; and once the output file is
    created, on every path, the error paths included, the archive
    writer is closed while the output file is still open, so the
    archive is flushed, and then the output file is closed. *)
Theorem handles_released_on_every_path E dirPath xlsxPath s :
  let s' := snd (createXLSXFromDir E dirPath xlsxPath s) in
  opened s' = opened s
  /\ deferred s' = deferred s
  /\ (forall listable listing,
        source E = Some (Dir listable listing) ->
        create_fails E = false ->
        exists z, output s' = Some z /\ finalized z = true).
Proof.
  cbv zeta.
  destruct (source E) as [[data flt | listable listing |] |] eqn:Hsrc.
  - rewrite createXLSXFromDir_no_directory, Hsrc. simpl.
    repeat split; intros; discriminate.
  - destruct (create_fails E) eqn:Hcreate.
    + rewrite (createXLSXFromDir_create_fails _ _ _ _ _ _ Hsrc Hcreate). simpl.
      repeat split; intros; discriminate.
    + destruct (run_on_directory E dirPath xlsxPath listable listing s Hsrc Hcreate)
        as (first & added & Hout & Hop & Hdf & _).
      split; [exact Hop |]. split; [exact Hdf |].
      intros l' es' _ _. eexists. split; [exact Hout | reflexivity].
  - rewrite createXLSXFromDir_no_directory, Hsrc. simpl.
    repeat split; intros; discriminate.
  - rewrite createXLSXFromDir_no_directory, Hsrc. simpl.
    repeat split; intros; discriminate.
Qed.

Lemma handles_released_on_every_path_witness :
  exists z,
    output (snd (createXLSXFromDir (host "/" (Some unreadable_file)) "in" "out.xlsx"
                   empty_state)) = Some z
    /\ finalized z = true.
Proof.
  refine (proj2 (proj2 (handles_released_on_every_path
            (host "/" (Some unreadable_file)) "in" "out.xlsx" empty_state))
            true _ eq_refl eq_refl).
Defined.

(** C10.  When the stat of the source path fails with an error other
    than non-existence, the function returns none of its errors: the
    non-existence test is false, the nil [FileInfo] is dereferenced,
    and the function panics, before anything was touched. *)
Theorem stat_error_panics E dirPath xlsxPath s :
  source E = Some Inaccessible ->
  createXLSXFromDir E dirPath xlsxPath s = (NilDereference, s)
  /\ forall e, fst (createXLSXFromDir E dirPath xlsxPath s) <> Err e.
Proof.
  intros Hsrc. rewrite createXLSXFromDir_no_directory, Hsrc.
  split; [reflexivity | discriminate].
Qed.

Lemma stat_error_panics_witness :
  createXLSXFromDir (host "/" (Some Inaccessible)) "in" "out.xlsx" empty_state
  = (NilDereference, empty_state)
  /\ forall e,
       fst (createXLSXFromDir (host "/" (Some Inaccessible)) "in" "out.xlsx" empty_state)
       <> Err e.
Proof.
  apply (stat_error_panics (host "/" (Some Inaccessible)) "in" "out.xlsx" empty_state).
  reflexivity.
Defined.

(** ** More about [createXLSXFromDir] *)

(** X1.  Whatever happens after the output file is created, a Store
    entry can only be the first entry of the archive, and then it is
    named [mimetype]: every later entry is Deflate. *)
Theorem only_the_first_entry_is_stored E dirPath xlsxPath listable listing s z i e :
  source E = Some (Dir listable listing) ->
  create_fails E = false ->
  output (snd (createXLSXFromDir E dirPath xlsxPath s)) = Some z ->
  nth_error (entries z) i = Some e ->
  Meth e = Store ->
  i = 0 /\ Name e = "mimetype".
Proof.
  intros Hsrc Hcreate Hout Hnth Hstore.
  destruct (run_on_directory E dirPath xlsxPath listable listing s Hsrc Hcreate)
    as (first & added & Hz & _ & _ & Hfirst & _ & _ & Hadded & _).
  cbv zeta in Hz. rewrite Hz in Hout. injection Hout as <-. simpl in Hnth.
  assert (Hwalk : forall j, nth_error added j = Some e -> False).
  { intros j Hj. apply nth_error_In in Hj.
    rewrite Forall_forall in Hadded. destruct (Hadded e Hj) as [Hm _]. congruence. }
  destruct Hfirst as [-> | [data ->]]; simpl in Hnth.
  - exfalso. eauto.
  - destruct i as [| j]; simpl in Hnth.
    + injection Hnth as <-. auto.
    + exfalso. eauto.
Qed.

Lemma only_the_first_entry_is_stored_witness :
  0 = 0 /\ Name (Entry "mimetype" Store [x61; x70; x70]) = "mimetype".
Proof.
  eapply (only_the_first_entry_is_stored (host "/" (Some workbook)) "in" "out.xlsx"
            true _ empty_state _ 0 (Entry "mimetype" Store [x61; x70; x70]));
    [reflexivity | reflexivity | vm_compute; reflexivity | reflexivity | reflexivity].
Defined.

(** *** No two entries share a name *)

Lemma files_of_paths_NoDup sep n :
  forall names,
    well_formed sep n = true ->
    NoDup (map fst (files_of n names)).
Proof.
  induction n as [data flt | | listable listing IH] using node_ind';
    intros names Hwf; simpl.
  - constructor; [intros [] | constructor].
  - constructor.
  - simpl in Hwf. apply andb_prop in Hwf as [Hd Hwf].
    rewrite forallb_forall in Hwf. apply distinct_NoDup in Hd.
    induction listing as [| [k c] r IHr]; simpl; [constructor |].
    inversion IH as [| ? ? Hc Hr]; subst. inversion Hd as [| ? ? Hk Hdr]; subst.
    rewrite map_app. apply NoDup_app.
    + apply Hc. specialize (Hwf (k, c) (or_introl eq_refl)). simpl in Hwf.
      now apply andb_prop in Hwf.
    + apply IHr; auto. intros x Hx. apply Hwf. now right.
    + intros p Hp Hp'.
      apply in_map_iff in Hp as (f & <- & Hf).
      apply in_map_iff in Hp' as (f' & Heq & Hf').
      apply in_flat_map in Hf' as ([k' c'] & Hkc & Hf'). simpl in Hf'.
      destruct (files_of_below _ _ _ Hf) as (q & Hq & _).
      destruct (files_of_below _ _ _ Hf') as (q' & Hq' & _).
      rewrite Hq, Hq', <- !app_assoc in Heq.
      apply app_inv_head in Heq. simpl in Heq. injection Heq as Hkk _.
      apply Hk. subst k'. change k with (fst (k, c')). now apply in_map.
Qed.

Lemma occurs_append c a b : occurs c (a ++ b) = occurs c a || occurs c b.
Proof.
  induction a as [| x r IH]; simpl; [reflexivity |].
  now rewrite IH, orb_assoc.
Qed.

(** Where the first slash stands decides the first name. *)
Lemma split_at_slash a b x y :
  occurs "/" a = false -> occurs "/" b = false ->
  (a ++ String "/" x = b ++ String "/" y)%string ->
  a = b /\ x = y.
Proof.
  revert b. induction a as [| c r IH]; intros [| c' r'] Ha Hb H; simpl in *.
  - injection H as ->. auto.
  - injection H as <- _. rewrite Ascii.eqb_refl in Hb. discriminate.
  - injection H as -> _. rewrite Ascii.eqb_refl in Ha. discriminate.
  - injection H as -> H.
    apply orb_false_iff in Ha as [_ Ha]. apply orb_false_iff in Hb as [_ Hb].
    destruct (IH _ Ha Hb H) as [-> ->]. auto.
Qed.

Lemma slash_path_inj p q :
  p <> [] -> q <> [] ->
  Forall (fun k => occurs "/" k = false) p ->
  Forall (fun k => occurs "/" k = false) q ->
  slash_path p = slash_path q -> p = q.
Proof.
  unfold slash_path. intros Hp Hq Fp. revert q Hq.
  induction Fp as [| a r Ha Fr IH]; [congruence |].
  intros q Hq Fq H. destruct Fq as [| b r' Hb Fr']; [congruence |].
  simpl in H.
  destruct r as [| a' r1], r' as [| b' r1'].
  - now subst.
  - subst a. rewrite occurs_append in Ha. simpl in Ha.
    rewrite orb_true_r in Ha. discriminate.
  - subst b. rewrite occurs_append in Hb. simpl in Hb.
    rewrite orb_true_r in Hb. discriminate.
  - change (a ++ String "/" (String.concat "/" (a' :: r1))
            = b ++ String "/" (String.concat "/" (b' :: r1')))%string in H.
    destruct (split_at_slash _ _ _ _ Ha Hb H) as [-> Hr].
    f_equal. apply IH; auto; discriminate.
Qed.

Lemma NoDup_map_on {A B} (f : A -> B) l :
  (forall x y, In x l -> In y l -> f x = f y -> x = y) ->
  NoDup l -> NoDup (map f l).
Proof.
  intros Hinj Hnd. induction Hnd as [| x r Hx _ IH]; simpl; constructor.
  - intros Hin. apply in_map_iff in Hin as (y & Hy & Hin).
    assert (y = x) by (apply Hinj; simpl; auto). now subst.
  - apply IH. intros y y' Hy Hy'. apply Hinj; now right.
Qed.

(** X2.  In the archive of a run that meets no fault no two entries
    have the same name; in particular the root [mimetype] is written
    once.  (A tree as file systems hold them: no name contains the
    separator or a forward slash.) *)
Theorem entry_names_are_distinct E dirPath xlsxPath listable listing s :
  source E = Some (Dir listable listing) ->
  create_fails E = false ->
  well_formed (Separator E) (Dir listable listing) = true ->
  well_formed "/" (Dir listable listing) = true ->
  sound E listable listing = true ->
  exists z,
    output (snd (createXLSXFromDir E dirPath xlsxPath s)) = Some z
    /\ NoDup (map Name (entries z)).
Proof.
  intros Hsrc Hcreate Hwf Hslash Hsound.
  rewrite (run_sound E dirPath xlsxPath listable listing s Hsrc Hcreate Hwf Hsound).
  eexists. split; [reflexivity |]. cbn [snd output entries].
  rewrite (planned_deflated _ _ _ Hwf), map_app, map_map.
  set (top := Dir listable listing) in *.
  assert (Hfree : forall f, In f (plan top []) ->
                    fst f <> [] /\ Forall (fun k => occurs "/" k = false) (fst f)
                    /\ kept f = true /\ In f (files_of top [])).
  { intros f Hf. apply in_plan in Hf as [Hf Hk].
    destruct (files_of_below _ _ _ Hf) as (q & Hq & Hne).
    repeat split; auto.
    - rewrite Hq. simpl. now apply Hne.
    - eapply files_of_names; eauto. }
  assert (Hplan : NoDup (map (fun f => Name (deflated f)) (plan top []))).
  { apply NoDup_map_on.
    - intros f g Hf Hg Heq. simpl in Heq.
      destruct (Hfree f Hf) as (Hne & Hfr & _ & Hinf).
      destruct (Hfree g Hg) as (Hne' & Hfr' & _ & Hing).
      pose proof (slash_path_inj _ _ Hne Hne' Hfr Hfr' Heq) as Hpath.
      pose proof (files_of_paths_NoDup (Separator E) top [] Hwf) as Hnd.
      clear - Hpath Hinf Hing Hnd.
      induction (files_of top []) as [| h r IH]; [contradiction |].
      simpl in Hnd. inversion Hnd as [| ? ? Hh Hr]; subst.
      destruct Hinf as [-> | Hinf], Hing as [-> | Hing]; auto.
      + exfalso. apply Hh. rewrite Hpath. now apply in_map.
      + exfalso. apply Hh. rewrite <- Hpath. now apply in_map.
    - eapply Permutation_NoDup; [symmetry; apply plan_perm |].
      apply NoDup_filter.
      eapply NoDup_map_inv. apply (files_of_paths_NoDup (Separator E) top [] Hwf). }
  apply NoDup_app; [| exact Hplan |].
  - unfold mimetype_entry.
    destruct (child "mimetype" listing) as [[data flt | |] |]; simpl;
      repeat constructor; intros [].
  - intros name Hname Hin.
    assert (name = "mimetype") as ->.
    { unfold mimetype_entry in Hname.
      destruct (child "mimetype" listing) as [[data flt | |] |]; simpl in Hname;
        try contradiction.
      destruct Hname as [<- | []]. reflexivity. }
    apply in_map_iff in Hin as (f & Hn & Hf). simpl in Hn.
    destruct (Hfree f Hf) as (Hne & Hfr & Hk & _).
    assert (Hp : fst f = ["mimetype"]).
    { apply (slash_path_inj (fst f) ["mimetype"] Hne);
        [discriminate | exact Hfr | repeat constructor | exact Hn]. }
    unfold kept in Hk. rewrite Hp in Hk. discriminate.
Qed.

Lemma entry_names_are_distinct_witness :
  exists z,
    output (snd (createXLSXFromDir (host "/" (Some workbook)) "in" "out.xlsx" empty_state))
    = Some z
    /\ NoDup (map Name (entries z)).
Proof.
  eapply (entry_names_are_distinct (host "/" (Some workbook)) "in" "out.xlsx");
    vm_compute; reflexivity.
Defined.

(** *** The order of the entries *)

Lemma ForallOrdPairs_app {A} (R : A -> A -> Prop) l1 l2 :
  ForallOrdPairs R l1 -> ForallOrdPairs R l2 ->
  (forall x y, In x l1 -> In y l2 -> R x y) ->
  ForallOrdPairs R (l1 ++ l2).
Proof.
  induction 1 as [| a r Ha Hr IH]; intros H2 Hx; simpl; [exact H2 |].
  constructor.
  - apply Forall_app. split; [exact Ha |].
    rewrite Forall_forall. intros y Hy. apply Hx; simpl; auto.
  - apply IH; [exact H2 |]. intros x y Hin. apply Hx. now right.
Qed.

Lemma path_before_prefix names p q :
  path_before (names ++ p) (names ++ q) <-> path_before p q.
Proof.
  induction names as [| k r IH]; simpl; [tauto |].
  now rewrite String.eqb_refl.
Qed.

(** The plan of a well-formed tree is in the order of the walk. *)
Lemma plan_in_order sep n :
  forall names,
    well_formed sep n = true ->
    ForallOrdPairs path_before (map fst (plan n names)).
Proof.
  induction n as [data flt | | listable listing IH] using node_ind';
    intros names Hwf.
  - simpl. destruct (named_mimetype names); simpl; repeat constructor.
  - constructor.
  - rewrite plan_Dir.
    simpl in Hwf. apply andb_prop in Hwf as [Hd Hwf].
    rewrite forallb_forall in Hwf. apply distinct_NoDup in Hd.
    assert (Hs : sorted (sort_by_name listing)) by apply sort_by_name_sorted.
    assert (Hnd : NoDup (map fst (sort_by_name listing))).
    { eapply Permutation_NoDup; [| exact Hd].
      apply Permutation_map. symmetry. apply sort_by_name_perm. }
    assert (Hin : forall x, In x (sort_by_name listing) -> In x listing).
    { intros x. apply in_sort_by_name. }
    induction (sort_by_name listing) as [| [k c] r IHr]; simpl; [constructor |].
    destruct Hs as [Hk Hs]. inversion Hnd as [| ? ? Hnk Hnr]; subst.
    rewrite map_app. apply ForallOrdPairs_app.
    + rewrite Forall_forall in IH. apply (IH (k, c)); [apply Hin; now left |].
      specialize (Hwf (k, c) (Hin _ (or_introl eq_refl))). simpl in Hwf.
      now apply andb_prop in Hwf.
    + apply IHr; auto. intros x Hx. apply Hin. now right.
    + intros p q Hp Hq.
      apply in_map_iff in Hp as (f & <- & Hf).
      apply in_map_iff in Hq as (g & <- & Hg).
      apply in_flat_map in Hg as ([k' c'] & Hkc & Hg). simpl in Hg.
      apply in_plan in Hf as [Hf _]. apply in_plan in Hg as [Hg _].
      destruct (files_of_below _ _ _ Hf) as (u & -> & _).
      destruct (files_of_below _ _ _ Hg) as (v & -> & _).
      rewrite <- !app_assoc. apply path_before_prefix. simpl.
      destruct (String.eqb_spec k k') as [-> | ne].
      * exfalso. apply Hnk. change k' with (fst (k', c')). now apply in_map.
      * rewrite Forall_forall in Hk. exact (Hk _ Hkc).
Qed.

Lemma path_before_asym p :
  forall q, path_before p q -> path_before q p -> False.
Proof.
  induction p as [| a p IH]; intros [| b q]; simpl; auto.
  rewrite (String.eqb_sym b a).
  destruct (String.eqb_spec a b) as [-> | ne]; [apply IH |].
  intros H1 H2. apply ne. now apply name_leb_antisym.
Qed.

(** Two arrangements of the same elements in which every element
    comes strictly before all that follow it are the same list. *)
Lemma ordered_perm_unique {A B} (f : A -> B) (R : B -> B -> Prop) :
  (forall x y, R x y -> R y x -> False) ->
  forall l l',
    Permutation l l' ->
    ForallOrdPairs R (map f l) -> ForallOrdPairs R (map f l') -> l = l'.
Proof.
  intros asym. induction l as [| x r IH]; intros l' Hp H1 H2.
  - apply Permutation_nil in Hp. now subst.
  - destruct l' as [| y r'].
    { apply Permutation_sym, Permutation_nil in Hp. discriminate. }
    simpl in H1, H2.
    inversion H1 as [| ? ? Hx Hr]; subst. inversion H2 as [| ? ? Hy Hr']; subst.
    assert (Heq : x = y).
    { assert (Hxin : In x (y :: r')) by (eapply Permutation_in; [exact Hp | now left]).
      assert (Hyin : In y (x :: r)).
      { eapply Permutation_in; [symmetry; exact Hp | now left]. }
      destruct Hxin as [Hxy | Hxin]; [now symmetry |].
      destruct Hyin as [Hyx | Hyin]; [exact Hyx |].
      exfalso. rewrite Forall_forall in Hx, Hy.
      apply (asym (f x) (f y)); [apply Hx | apply Hy]; now apply in_map. }
    subst y. f_equal. apply IH; auto.
    eapply Permutation_cons_inv; exact Hp.
Qed.

(** X3.  The archive of a run that meets no fault is in the order of
    the walk: after the [mimetype] entry come the entries of the
    regular files of the tree that are not named [mimetype], each
    once, arranged by their paths, name by name, such that of two
    entries the one whose path has the smaller name (byte by byte) at
    the first place where the paths differ comes first; and there is
    one arrangement of these files only that is in this order. *)
Theorem entries_in_walk_order E dirPath xlsxPath listable listing s :
  source E = Some (Dir listable listing) ->
  create_fails E = false ->
  well_formed (Separator E) (Dir listable listing) = true ->
  sound E listable listing = true ->
  exists walked,
    output (snd (createXLSXFromDir E dirPath xlsxPath s))
    = Some (Zip (mimetype_entry listing ++ map deflated walked) true)
    /\ Permutation walked (filter kept (files_of (Dir listable listing) []))
    /\ ForallOrdPairs path_before (map fst walked)
    /\ (forall other,
          Permutation other (filter kept (files_of (Dir listable listing) [])) ->
          ForallOrdPairs path_before (map fst other) ->
          other = walked).
Proof.
  intros Hsrc Hcreate Hwf Hsound.
  rewrite (run_sound E dirPath xlsxPath listable listing s Hsrc Hcreate Hwf Hsound).
  assert (Hord : ForallOrdPairs path_before (map fst (plan (Dir listable listing) []))).
  { eapply plan_in_order; eassumption. }
  exists (plan (Dir listable listing) []). split; [| split; [| split]].
  - cbn [snd output]. now rewrite (planned_deflated _ _ _ Hwf).
  - apply plan_perm.
  - exact Hord.
  - intros other Hperm Hother.
    apply (ordered_perm_unique fst path_before path_before_asym); auto.
    eapply Permutation_trans; [exact Hperm |].
    symmetry. apply plan_perm.
Qed.

Lemma entries_in_walk_order_witness :
  output (snd (createXLSXFromDir (host "/" (Some prefix_names)) "in" "out.xlsx" empty_state))
  = Some (Zip [Entry "a/c.txt" Deflate [x32]; Entry "a.txt" Deflate [x31]] true).
Proof.
  destruct (entries_in_walk_order (host "/" (Some prefix_names)) "in" "out.xlsx" true
              [ ("a.txt", File [x31] Healthy);
                ("a", Dir true [ ("c.txt", File [x32] Healthy) ]) ]
              empty_state eq_refl eq_refl eq_refl eq_refl)
    as (walked & Hout & _ & _ & Hone).
  rewrite Hout.
  rewrite <- (Hone [ (["a"; "c.txt"], [x32]); (["a.txt"], [x31]) ]).
  - reflexivity.
  - vm_compute. apply perm_swap.
  - vm_compute. repeat constructor.
Defined.

(** *** The command *)

Ltac status_cases :=
  repeat match goal with
    | |- _ /\ _ => split
    | |- _ <-> _ => split
    | |- _ -> _ => intro
    | H : _ /\ _ |- _ => destruct H
    | H : exists _, _ |- _ => destruct H
    end;
  try discriminate; try congruence; auto.

(** X6.  [main] ends with status 0 exactly when both flags are given,
    the input is a directory, the output file can be created and no
    step meets a fault; with status 2 exactly when both flags are given
    and the stat of the input fails for a reason other than
    non-existence; and with status 1 otherwise.  With a flag missing
    it touches nothing. *)
Theorem main_exit_status E inputDir outputXlsx s :
  (forall t, source E = Some t -> well_formed (Separator E) t = true) ->
  let flags := negb ((inputDir =? "") || (outputXlsx =? "")) in
  let status := fst (fst (main E inputDir outputXlsx s)) in
  (status = 0 <->
   flags = true
   /\ exists listable listing,
        source E = Some (Dir listable listing)
        /\ create_fails E = false /\ sound E listable listing = true)
  /\ (status = 2 <-> flags = true /\ source E = Some Inaccessible)
  /\ (status = 0 \/ status = 1 \/ status = 2)
  /\ (flags = false -> main E inputDir outputXlsx s = (1, [MissingFlags; Usage], s)).
Proof.
  intros Hwf. cbv zeta. unfold main.
  destruct ((inputDir =? "") || (outputXlsx =? "")) eqn:Hflags; simpl.
  { status_cases. }
  destruct (source E) as [[data flt | listable listing |] |] eqn:Hsrc.
  - rewrite createXLSXFromDir_no_directory, Hsrc. simpl. status_cases.
  - specialize (Hwf _ eq_refl).
    destruct (create_fails E) eqn:Hcreate.
    + rewrite (createXLSXFromDir_create_fails _ _ _ _ _ _ Hsrc Hcreate). simpl.
      status_cases.
    + destruct (sound E listable listing) eqn:Hsound.
      * rewrite (run_sound E inputDir outputXlsx listable listing s Hsrc Hcreate Hwf Hsound).
        simpl. status_cases. eauto 10.
      * destruct (run_unsound E inputDir outputXlsx listable listing s Hsrc Hcreate Hwf Hsound)
          as [e He].
        destruct (createXLSXFromDir E inputDir outputXlsx s) as [r s'].
        simpl in He. subst r. simpl. status_cases.
  - rewrite createXLSXFromDir_no_directory, Hsrc. simpl. status_cases.
  - rewrite createXLSXFromDir_no_directory, Hsrc. simpl. status_cases.
Qed.

Lemma main_exit_status_witness :
  fst (fst (main (host "/" (Some workbook)) "in" "out.xlsx" empty_state)) = 0
  /\ fst (fst (main (host "/" (Some unreadable_file)) "in" "out.xlsx" empty_state)) = 1
  /\ main (host "/" (Some workbook)) "in" "" empty_state
     = (1, [MissingFlags; Usage], empty_state).
Proof.
  assert (Hwb : forall t, source (host "/" (Some workbook)) = Some t ->
                          well_formed "/" t = true).
  { intros t H. injection H as <-. reflexivity. }
  assert (Hun : forall t, source (host "/" (Some unreadable_file)) = Some t ->
                          well_formed "/" t = true).
  { intros t H. injection H as <-. reflexivity. }
  split; [| split].
  - apply (proj1 (main_exit_status (host "/" (Some workbook)) "in" "out.xlsx"
                    empty_state Hwb)).
    split; [reflexivity |]. eexists _, _. repeat split; vm_compute; reflexivity.
  - destruct (main_exit_status (host "/" (Some unreadable_file)) "in" "out.xlsx"
                empty_state Hun) as (H0 & H2 & [H | [H | H]] & _).
    + apply H0 in H as (_ & l & es & Hs & _ & Hsound).
      injection Hs as <- <-. vm_compute in Hsound. discriminate.
    + exact H.
    + apply H2 in H as [_ H]. discriminate.
  - apply (main_exit_status (host "/" (Some workbook)) "in" "" empty_state Hwb).
    reflexivity.
Defined.

(** ** The Firestore document reader *)

(** [mapValue["fields"]], asserted to be a map and parsed. *)
Lemma index_lookup mapValue :
  (fix index (mv : list (string * json)) :=
     match mv with
     | [] => None
     | (k, v) :: r =>
         if k =? "fields" then
           match v with
           | JObject _ => Some (parseObject v)
           | _ => None
           end
         else index r
     end) mapValue
  = match lookup "fields" mapValue with
    | Some (JObject nestedFields) => Some (parseObject (JObject nestedFields))
    | _ => None
    end.
Proof.
  induction mapValue as [| [k v] r IH]; [reflexivity |].
  cbn [lookup]. destruct (k =? "fields"); [| exact IH].
  destruct v; reflexivity.
Qed.

(** The function is its outer loop, turn by turn. *)
Lemma parseObject_fold fields :
  parseObject (JObject fields) = fold_left turn fields [].
Proof.
  cbn [parseObject]. generalize (@nil (string * json)).
  induction fields as [| [key value] rest IH]; intros acc; [reflexivity |].
  cbn [fold_left]. rewrite <- IH. f_equal.
  unfold turn, unwrapped, parseFirestoreFields. cbn [fst snd].
  destruct value as [| b | n | str | items | valueDict]; try reflexivity.
  destruct valueDict as [| [valueType actualValue] more]; [reflexivity |].
  destruct (valueType =? "mapValue"); [| reflexivity].
  destruct actualValue as [| b | n | str | items | mapValue]; try reflexivity.
  rewrite index_lookup.
  destruct (lookup "fields" mapValue) as [[| b | n | str | items | nested] |];
    reflexivity.
Qed.

Lemma lookup_assign {A} key k (v : A) m :
  lookup key (assign k v m) = if String.eqb k key then Some v else lookup key m.
Proof.
  induction m as [| [k' x] r IH]; simpl.
  - reflexivity.
  - destruct (String.eqb_spec k' k) as [-> | ne]; simpl.
    + destruct (k =? key); reflexivity.
    + rewrite IH. destruct (String.eqb_spec k' key) as [-> | ne'];
        [| reflexivity].
      destruct (String.eqb_spec k key) as [-> | _]; [congruence | reflexivity].
Qed.

Lemma lookup_None_keys {A} key (m : list (string * A)) :
  lookup key m = None <-> ~ In key (map fst m).
Proof.
  induction m as [| [k x] r IH]; simpl; [tauto |].
  destruct (String.eqb_spec k key) as [-> | ne].
  - split; [discriminate | intros H; exfalso; auto].
  - rewrite IH. tauto.
Qed.

Lemma lookup_turn key acc field :
  lookup key (turn acc field)
  = if String.eqb (fst field) key
    then match unwrapped (snd field) with
         | Some v => Some v
         | None => lookup key acc
         end
    else lookup key acc.
Proof.
  unfold turn. destruct (unwrapped (snd field)) as [v |].
  - apply lookup_assign.
  - now destruct (fst field =? key).
Qed.

(** What the loop leaves under a key. *)
Lemma lookup_fold key fields :
  NoDup (map fst fields) ->
  forall acc,
    lookup key (fold_left turn fields acc)
    = match lookup key fields with
      | Some value =>
          match unwrapped value with
          | Some v => Some v
          | None => lookup key acc
          end
      | None => lookup key acc
      end.
Proof.
  induction fields as [| [k value] rest IH]; intros Hnd acc; [reflexivity |].
  inversion Hnd as [| ? ? Hk Hrest]; subst.
  cbn [fold_left lookup]. rewrite (IH Hrest), lookup_turn. cbn [fst snd].
  destruct (String.eqb_spec k key) as [-> | ne]; [| reflexivity].
  apply lookup_None_keys in Hk. now rewrite Hk.
Qed.

Lemma lookup_parse key fields :
  NoDup (map fst fields) ->
  lookup key (parseFirestoreFields (Some fields))
  = match lookup key fields with
    | Some value => unwrapped value
    | None => None
    end.
Proof.
  intros Hnd. unfold parseFirestoreFields.
  rewrite parseObject_fold, (lookup_fold key fields Hnd).
  destruct (lookup key fields) as [value |]; [| reflexivity].
  now destruct (unwrapped value).
Qed.

(** X7.  A field whose value is no map (a string, a number, a bool,
    nil, a slice) is copied as it is; a field whose value is a map is
    replaced by the value of the member the runtime enumerates first,
    whatever that value is, unless that member is [mapValue]. *)
Theorem field_values_are_unwrapped key fields value :
  NoDup (map fst fields) ->
  lookup key fields = Some value ->
  let parsed := lookup key (parseFirestoreFields (Some fields)) in
  (match value with JObject _ => False | _ => True end -> parsed = Some value)
  /\ (forall valueType actualValue more,
        value = JObject ((valueType, actualValue) :: more) ->
        valueType <> "mapValue" ->
        parsed = Some actualValue).
Proof.
  intros Hnd Hkey. cbv zeta. rewrite (lookup_parse key fields Hnd), Hkey.
  split.
  - destruct value; simpl; tauto.
  - intros t a more -> Ht. simpl.
    destruct (String.eqb_spec t "mapValue"); [contradiction | reflexivity].
Qed.

Lemma field_values_are_unwrapped_witness :
  lookup "raw" (parseFirestoreFields
                  (Some [ ("name", JObject [("stringValue", JString "x")]);
                          ("raw", JNumber "7") ])) = Some (JNumber "7")
  /\ lookup "name" (parseFirestoreFields
                      (Some [ ("name", JObject [("stringValue", JString "x")]);
                              ("raw", JNumber "7") ])) = Some (JString "x").
Proof.
  split.
  - apply (proj1 (field_values_are_unwrapped "raw"
                    [ ("name", JObject [("stringValue", JString "x")]);
                      ("raw", JNumber "7") ] (JNumber "7")
                    ltac:(repeat constructor; simpl; intuition discriminate) eq_refl)).
    exact I.
  - apply (proj2 (field_values_are_unwrapped "name"
                    [ ("name", JObject [("stringValue", JString "x")]);
                      ("raw", JNumber "7") ] (JObject [("stringValue", JString "x")])
                    ltac:(repeat constructor; simpl; intuition discriminate) eq_refl)
             "stringValue" (JString "x") [] eq_refl).
    discriminate.
Defined.

(** X8.  A field whose value is a [mapValue] holding a map under
    [fields] becomes the map parsed from those fields: the function
    descends. *)
Theorem map_values_are_parsed key fields actualValue more mapValue nestedFields :
  NoDup (map fst fields) ->
  lookup key fields = Some (JObject (("mapValue", actualValue) :: more)) ->
  actualValue = JObject mapValue ->
  lookup "fields" mapValue = Some (JObject nestedFields) ->
  lookup key (parseFirestoreFields (Some fields))
  = Some (JObject (parseFirestoreFields (Some nestedFields))).
Proof.
  intros Hnd Hkey -> Hfields.
  rewrite (lookup_parse key fields Hnd), Hkey. simpl. now rewrite Hfields.
Qed.

Lemma map_values_are_parsed_witness :
  lookup "addr"
    (parseFirestoreFields
       (Some [ ("addr", JObject [("mapValue",
                  JObject [("fields",
                    JObject [("city", JObject [("stringValue", JString "P")])])])]) ]))
  = Some (JObject (parseFirestoreFields
                     (Some [("city", JObject [("stringValue", JString "P")])]))).
Proof.
  eapply (map_values_are_parsed "addr" _ _ []);
    [repeat constructor; simpl; tauto | reflexivity | reflexivity | reflexivity].
Defined.

(** X9.  Fields that vanish: the result has nothing under a key that
    the input does not have, under a key whose value is the empty map,
    and under a key whose [mapValue] is no map or holds no map under
    [fields] (so the empty Firestore map [{"mapValue": {}}] is left
    out of the result). *)
Theorem fields_left_out key fields :
  NoDup (map fst fields) ->
  let parsed := lookup key (parseFirestoreFields (Some fields)) in
  (lookup key fields = None -> parsed = None)
  /\ (lookup key fields = Some (JObject []) -> parsed = None)
  /\ (forall actualValue more,
        lookup key fields = Some (JObject (("mapValue", actualValue) :: more)) ->
        (forall mapValue nestedFields,
            actualValue = JObject mapValue ->
            lookup "fields" mapValue <> Some (JObject nestedFields)) ->
        parsed = None).
Proof.
  intros Hnd. cbv zeta. rewrite (lookup_parse key fields Hnd).
  split; [| split].
  - now intros ->.
  - now intros ->.
  - intros a more -> Hno. simpl.
    destruct a as [| b | n | str | items | mv]; try reflexivity.
    specialize (Hno mv).
    destruct (lookup "fields" mv) as [[| b | n | str | items | nested] |];
      try reflexivity.
    exfalso. exact (Hno nested eq_refl eq_refl).
Qed.

Lemma fields_left_out_witness :
  lookup "empty"
    (parseFirestoreFields
       (Some [ ("empty", JObject [("mapValue", JObject [])]);
               ("name", JObject [("stringValue", JString "x")]) ])) = None.
Proof.
  apply (proj2 (proj2 (fields_left_out "empty"
           [ ("empty", JObject [("mapValue", JObject [])]);
             ("name", JObject [("stringValue", JString "x")]) ]
           ltac:(repeat constructor; simpl; intuition discriminate)))
           (JObject []) [] eq_refl).
  intros mv nested H. injection H as <-. discriminate.
Defined.

Lemma assign_keys {A} k (v : A) m :
  map fst (assign k v m)
  = if existsb (String.eqb k) (map fst m) then map fst m else map fst m ++ [k].
Proof.
  induction m as [| [k' x] r IH]; simpl; [reflexivity |].
  rewrite (String.eqb_sym k k').
  destruct (String.eqb_spec k' k) as [-> | ne]; simpl; [reflexivity |].
  rewrite IH. now destruct (existsb (String.eqb k) (map fst r)).
Qed.

Lemma assign_NoDup {A} k (v : A) m :
  NoDup (map fst m) -> NoDup (map fst (assign k v m)).
Proof.
  intros Hnd. rewrite assign_keys.
  destruct (existsb (String.eqb k) (map fst m)) eqn:Hex; [exact Hnd |].
  apply NoDup_app; [exact Hnd | repeat constructor; intros [] |].
  intros a Ha [Heq | []]. subst a.
  assert (existsb (String.eqb k) (map fst m) = true); [| congruence].
  apply existsb_exists. exists k. split; [exact Ha | apply String.eqb_refl].
Qed.

Lemma turn_keeps acc field :
  (NoDup (map fst acc) -> NoDup (map fst (turn acc field)))
  /\ (forall k, In k (map fst (turn acc field)) -> In k (map fst acc) \/ k = fst field)
  /\ List.length (turn acc field) <= S (List.length acc).
Proof.
  unfold turn. destruct (unwrapped (snd field)) as [v |].
  - split; [apply assign_NoDup |]. split.
    + intros k. rewrite assign_keys.
      destruct (existsb _ _); [auto |].
      intros H. apply in_app_or in H as [H | [<- | []]]; auto.
    + rewrite <- !(length_map fst), assign_keys.
      destruct (existsb _ _); [auto |].
      rewrite length_app. simpl. rewrite PeanoNat.Nat.add_1_r. auto.
  - auto.
Qed.

(** X10.  The result has no key twice, every key of the result is a key
    of the input, and the result has at most as many fields as the
    input; for the nil map it is empty. *)
Theorem parsed_keys_come_from_the_input fields :
  let parsed := parseFirestoreFields fields in
  NoDup (map fst parsed)
  /\ (forall k, In k (map fst parsed) ->
        exists fs, fields = Some fs /\ In k (map fst fs))
  /\ List.length parsed <= match fields with
                           | Some fs => List.length fs
                           | None => 0
                           end.
Proof.
  destruct fields as [fs |]; cbv zeta; unfold parseFirestoreFields.
  - rewrite parseObject_fold.
    assert (H : forall acc,
               NoDup (map fst acc) ->
               NoDup (map fst (fold_left turn fs acc))
               /\ (forall k, In k (map fst (fold_left turn fs acc)) ->
                     In k (map fst acc) \/ In k (map fst fs))
               /\ List.length (fold_left turn fs acc) <= List.length fs + List.length acc).
    { induction fs as [| f r IH]; intros acc Hacc; simpl; [auto |].
      destruct (turn_keeps acc f) as (Hnd & Hin & Hlen).
      destruct (IH (turn acc f) (Hnd Hacc)) as (Hnd' & Hin' & Hlen').
      split; [exact Hnd' |]. split.
      - intros k Hk. destruct (Hin' k Hk) as [Hk' | Hk']; [| auto].
        destruct (Hin k Hk'); auto.
      - eapply PeanoNat.Nat.le_trans; [exact Hlen' |].
        rewrite <- PeanoNat.Nat.add_succ_r.
        now apply PeanoNat.Nat.add_le_mono_l. }
    destruct (H [] (NoDup_nil _)) as (Hnd & Hin & Hlen).
    split; [exact Hnd |]. split.
    + intros k Hk. exists fs. split; [reflexivity |].
      destruct (Hin k Hk) as [[] | Hk']; exact Hk'.
    + simpl in Hlen. now rewrite PeanoNat.Nat.add_0_r in Hlen.
  - split; [constructor |]. split; [intros k [] | constructor].
Qed.

Lemma lookup_In {A} k (v : A) m :
  NoDup (map fst m) -> In (k, v) m -> lookup k m = Some v.
Proof.
  induction m as [| [k' x] r IH]; simpl; [contradiction |].
  intros Hnd Hin. inversion Hnd as [| ? ? Hk Hr]; subst.
  destruct Hin as [Heq | Hin].
  - inversion Heq; subst. now rewrite String.eqb_refl.
  - destruct (String.eqb_spec k' k) as [-> | ne]; [| auto].
    exfalso. apply Hk. change k with (fst (k, v)). now apply in_map.
Qed.

Lemma lookup_Some_In {A} k (v : A) m : lookup k m = Some v -> In (k, v) m.
Proof.
  induction m as [| [k' x] r IH]; simpl; [discriminate |].
  destruct (String.eqb_spec k' k) as [-> | ne].
  - intros H. inversion H. now left.
  - intros H. right. auto.
Qed.

Lemma lookup_perm {A} k (m1 m2 : list (string * A)) :
  NoDup (map fst m1) -> Permutation m1 m2 -> lookup k m1 = lookup k m2.
Proof.
  intros Hnd Hp.
  assert (Hnd2 : NoDup (map fst m2)).
  { eapply Permutation_NoDup; [apply Permutation_map; exact Hp | exact Hnd]. }
  destruct (lookup k m1) as [v |] eqn:H1.
  - apply lookup_Some_In in H1. symmetry. apply lookup_In; [exact Hnd2 |].
    eapply Permutation_in; eassumption.
  - destruct (lookup k m2) as [v |] eqn:H2; [| reflexivity].
    apply lookup_Some_In in H2. apply lookup_None_keys in H1. exfalso. apply H1.
    apply (in_map fst) in H2. simpl in H2.
    eapply Permutation_in; [apply Permutation_map, Permutation_sym; exact Hp | exact H2].
Qed.

(** X11.  The order in which the runtime enumerates the fields of the
    document makes no difference: two enumerations of the same fields
    give results with the same value under every key. *)
Theorem field_order_is_immaterial fields fields' key :
  NoDup (map fst fields) ->
  Permutation fields fields' ->
  lookup key (parseFirestoreFields (Some fields))
  = lookup key (parseFirestoreFields (Some fields')).
Proof.
  intros Hnd Hp.
  assert (Hnd' : NoDup (map fst fields')).
  { eapply Permutation_NoDup; [apply Permutation_map; exact Hp | exact Hnd]. }
  rewrite (lookup_parse key fields Hnd), (lookup_parse key fields' Hnd').
  now rewrite (lookup_perm key fields fields' Hnd Hp).
Qed.

Lemma field_order_is_immaterial_witness :
  lookup "b" (parseFirestoreFields
                (Some [ ("a", JObject [("stringValue", JString "x")]);
                        ("b", JObject [("booleanValue", JBool true)]) ]))
  = lookup "b" (parseFirestoreFields
                  (Some [ ("b", JObject [("booleanValue", JBool true)]);
                          ("a", JObject [("stringValue", JString "x")]) ])).
Proof.
  apply field_order_is_immaterial.
  - repeat constructor; simpl; intuition discriminate.
  - apply perm_swap.
Defined.

Lemma parsed_keys_come_from_the_input_witness :
  exists fs,
    Some [ ("name", JObject [("stringValue", JString "x")]); ("none", JObject []) ]
    = Some fs
    /\ In "name" (map fst fs).
Proof.
  apply (proj1 (proj2 (parsed_keys_come_from_the_input
           (Some [ ("name", JObject [("stringValue", JString "x")]);
                   ("none", JObject []) ]))) "name").
  vm_compute. auto.
Defined.

(** *** Documents of typed values *)

Lemma document_ind' (P : document -> Prop) :
  (forall tag v, P (Typed tag v)) ->
  (forall fields, Forall (fun kd => P (snd kd)) fields -> P (Mapped fields)) ->
  forall d, P d.
Proof.
  intros HT HM.
  fix IH 1.
  intros [tag v | fields].
  - apply HT.
  - apply HM.
    induction fields as [| [k d] r IHr]; constructor; [apply IH | exact IHr].
Qed.

Lemma assign_fresh {A} k (v : A) m :
  ~ In k (map fst m) -> assign k v m = m ++ [(k, v)].
Proof.
  induction m as [| [k' x] r IH]; simpl; intros Hk; [reflexivity |].
  destruct (String.eqb_spec k' k) as [-> | ne]; [exfalso; auto |].
  rewrite IH; auto.
Qed.

(** The loop over typed fields whose values unwrap to their plain form
    appends the plain fields. *)
Lemma fold_typed fields :
  Forall (fun kd => unwrapped (typed (snd kd)) = Some (plain (snd kd))) fields ->
  forall acc,
    NoDup (map fst acc ++ map fst fields) ->
    fold_left turn (map (fun kd => (fst kd, typed (snd kd))) fields) acc
    = acc ++ map (fun kd => (fst kd, plain (snd kd))) fields.
Proof.
  induction 1 as [| [k d] r Hd _ IH]; intros acc Hnd; simpl.
  - now rewrite app_nil_r.
  - simpl in Hd, Hnd. unfold turn at 2. cbn [fst snd]. rewrite Hd.
    rewrite assign_fresh.
    + rewrite IH.
      * now rewrite <- app_assoc.
      * rewrite map_app. simpl. rewrite <- app_assoc. exact Hnd.
    + apply NoDup_remove_2 in Hnd. intros Hin. apply Hnd.
      apply in_or_app. now left.
Qed.

Arguments parseFirestoreFields : simpl never.

Lemma unwrapped_typed d :
  tagged d = true -> unwrapped (typed d) = Some (plain d).
Proof.
  induction d as [tag v | fields IH] using document_ind'; intros Ht; simpl in *.
  - apply negb_true_iff in Ht. now rewrite Ht.
  - apply andb_prop in Ht as [Hd Hall].
    rewrite forallb_forall in Hall.
    do 2 f_equal. unfold parseFirestoreFields. rewrite parseObject_fold.
    rewrite (fold_typed fields).
    + reflexivity.
    + rewrite Forall_forall in IH |- *. intros kd Hin. apply IH; auto.
    + simpl. now apply distinct_NoDup.
Qed.

(** X12.  A document written in Firestore's typed form (every value
    under one type tag, maps as [mapValue] with [fields], at any depth)
    is read back as the plain document: the same keys in the same
    order, each with its plain value. *)
Theorem typed_document_is_read_back fields :
  tagged (Mapped fields) = true ->
  parseFirestoreFields (Some (map (fun kd => (fst kd, typed (snd kd))) fields))
  = map (fun kd => (fst kd, plain (snd kd))) fields.
Proof.
  intros Ht. pose proof (unwrapped_typed (Mapped fields) Ht) as H.
  simpl in H. now injection H.
Qed.

Lemma typed_document_is_read_back_witness :
  parseFirestoreFields
    (Some [ ("name", JObject [("stringValue", JString "x")]);
            ("addr", JObject [("mapValue",
               JObject [("fields",
                 JObject [("zip", JObject [("integerValue", JString "75")])])])]) ])
  = [ ("name", JString "x"); ("addr", JObject [("zip", JString "75")]) ].
Proof.
  apply (typed_document_is_read_back
           [ ("name", Typed "stringValue" (JString "x"));
             ("addr", Mapped [("zip", Typed "integerValue" (JString "75"))]) ]).
  reflexivity.
Defined.

(** ** The permission report *)

Lemma grantedPermissions_spec permissions :
  forall m,
    NoDup (map fst m) ->
    Forall (fun kv => snd kv = true) m ->
    let m' := fold_left (fun m p => assign p true m) permissions m in
    NoDup (map fst m')
    /\ Forall (fun kv => snd kv = true) m'
    /\ (forall p, In p (map fst m') <-> In p (map fst m) \/ In p permissions).
Proof.
  induction permissions as [| q r IH]; intros m Hnd Htrue; cbv zeta; simpl.
  - split; [exact Hnd |]. split; [exact Htrue | tauto].
  - destruct (IH (assign q true m)) as (Hnd' & Htrue' & Hin').
    + now apply assign_NoDup.
    + clear - Htrue. induction m as [| [k b] t IHm]; simpl.
      * repeat constructor.
      * inversion Htrue; subst.
        destruct (k =? q); constructor; auto.
    + split; [exact Hnd' |]. split; [exact Htrue' |].
      intros p. rewrite Hin', assign_keys.
      destruct (existsb (String.eqb q) (map fst m)) eqn:Hex.
      * apply existsb_exists in Hex as (x & Hx & Heq).
        apply String.eqb_eq in Heq. subst x.
        split; [tauto |]. intros [H | [<- | H]]; auto.
      * rewrite in_app_iff. simpl. tauto.
Qed.

Lemma is_granted_In permissions p :
  is_granted (grantedPermissions permissions) p = true <-> In p permissions.
Proof.
  destruct (grantedPermissions_spec permissions [] (NoDup_nil _) (Forall_nil _))
    as (Hnd & Htrue & Hin).
  fold (grantedPermissions permissions) in Hnd, Htrue, Hin.
  unfold is_granted.
  destruct (lookup p (grantedPermissions permissions)) as [b |] eqn:Hl.
  - apply lookup_Some_In in Hl.
    rewrite Forall_forall in Htrue. rewrite (Htrue _ Hl : b = true).
    split; [intros _ | reflexivity].
    apply (in_map fst) in Hl. apply Hin in Hl as [[] | Hl]. exact Hl.
  - apply lookup_None_keys in Hl. split; [discriminate |].
    intros Hp. exfalso. apply Hl. apply Hin. now right.
Qed.

(** X13.  The report has one line for each permission checked, in the
    order of the list, and the line says granted exactly when the
    permission occurs in the response. *)
Theorem report_lines permissions :
  let lines := fst (permissionReport permissions) in
  List.length lines = 11
  /\ forall i permission,
       nth_error PERMISSIONS_TO_CHECK i = Some permission ->
       (In permission permissions -> nth_error lines i = Some (Granted permission))
       /\ (~ In permission permissions ->
           nth_error lines i = Some (NotGranted permission)).
Proof.
  cbv zeta. unfold permissionReport. cbn [fst]. split.
  - now rewrite length_map.
  - intros i p Hi. rewrite nth_error_map, Hi. cbn [option_map].
    pose proof (is_granted_In permissions p) as H.
    destruct (is_granted (grantedPermissions permissions) p).
    + split; [reflexivity |]. intros Hn. exfalso. apply Hn, H. reflexivity.
    + split; [| reflexivity]. intros Hp. apply H in Hp. discriminate.
Qed.

Lemma report_lines_witness :
  nth_error (fst (permissionReport ["cloudfunctions.functions.get"])) 3
  = Some (Granted "cloudfunctions.functions.get")
  /\ nth_error (fst (permissionReport ["cloudfunctions.functions.get"])) 0
     = Some (NotGranted "cloudfunctions.functions.call").
Proof.
  split.
  - apply (proj2 (report_lines ["cloudfunctions.functions.get"]) 3 _ eq_refl).
    now left.
  - apply (proj2 (report_lines ["cloudfunctions.functions.get"]) 0 _ eq_refl).
    intros [H | []]. discriminate.
Defined.

Lemma granted_lines_In permissions p :
  In p (granted_lines (fst (permissionReport permissions)))
  <-> In p PERMISSIONS_TO_CHECK /\ In p permissions.
Proof.
  unfold permissionReport, granted_lines. cbn [fst].
  rewrite in_flat_map. split.
  - intros (v & Hv & Hp). apply in_map_iff in Hv as (q & <- & Hq).
    pose proof (is_granted_In permissions q) as H.
    destruct (is_granted (grantedPermissions permissions) q); simpl in Hp.
    + destruct Hp as [<- | []]. split; [exact Hq | now apply H].
    + contradiction.
  - intros [Hc Hp]. exists (Granted p). split; [| now left].
    apply in_map_iff. exists p. split; [| exact Hc].
    now rewrite (proj2 (is_granted_In permissions p) Hp).
Qed.

Lemma granted_lines_NoDup permissions :
  NoDup (granted_lines (fst (permissionReport permissions))).
Proof.
  unfold permissionReport, granted_lines. cbn [fst].
  assert (Hnd : NoDup PERMISSIONS_TO_CHECK).
  { apply distinct_NoDup. reflexivity. }
  induction Hnd as [| q r Hq _ IH]; simpl; [constructor |].
  destruct (is_granted (grantedPermissions permissions) q); simpl; [| exact IH].
  constructor; [| exact IH].
  intros Hin. apply Hq. apply in_flat_map in Hin as (v & Hv & Hp).
  apply in_map_iff in Hv as (q' & <- & Hq').
  destruct (is_granted (grantedPermissions permissions) q'); simpl in Hp;
    [| contradiction].
  now destruct Hp as [<- | []].
Qed.

(** X14.  The count the report ends with is the number of different
    permissions in the response, whether they were checked or not: it
    is never below the number of lines that say granted, and it equals
    that number when the response names only permissions that were
    checked. *)
Theorem report_count permissions :
  let lines := fst (permissionReport permissions) in
  let found := fst (snd (permissionReport permissions)) in
  found = List.length (nodup string_dec permissions)
  /\ List.length (granted_lines lines) <= found
  /\ (incl permissions PERMISSIONS_TO_CHECK ->
      List.length (granted_lines lines) = found).
Proof.
  cbv zeta.
  destruct (grantedPermissions_spec permissions [] (NoDup_nil _) (Forall_nil _))
    as (Hnd & _ & Hin).
  fold (grantedPermissions permissions) in Hnd, Hin.
  assert (Hkeys : forall p, In p (map fst (grantedPermissions permissions))
                            <-> In p permissions).
  { intros p. rewrite Hin. simpl. tauto. }
  assert (Hfound : fst (snd (permissionReport permissions))
                   = List.length (map fst (grantedPermissions permissions))).
  { unfold permissionReport. cbn [fst snd]. now rewrite length_map. }
  rewrite Hfound.
  split; [| split].
  - apply PeanoNat.Nat.le_antisymm; apply NoDup_incl_length.
    + exact Hnd.
    + intros p Hp. apply nodup_In. now apply Hkeys.
    + apply NoDup_nodup.
    + intros p Hp. apply Hkeys. now apply nodup_In in Hp.
  - apply NoDup_incl_length; [apply granted_lines_NoDup |].
    intros p Hp. apply Hkeys. now apply granted_lines_In in Hp.
  - intros Hincl. apply PeanoNat.Nat.le_antisymm; apply NoDup_incl_length.
    + apply granted_lines_NoDup.
    + intros p Hp. apply Hkeys. now apply granted_lines_In in Hp.
    + exact Hnd.
    + intros p Hp. apply granted_lines_In. apply Hkeys in Hp. auto.
Qed.

Lemma report_count_witness :
  List.length
    (granted_lines
       (fst (permissionReport
               ["cloudfunctions.functions.get"; "cloudfunctions.functions.get";
                "cloudfunctions.operations.list"])))
  = fst (snd (permissionReport
                ["cloudfunctions.functions.get"; "cloudfunctions.functions.get";
                 "cloudfunctions.operations.list"])).
Proof.
  apply (proj2 (proj2 (report_count
           ["cloudfunctions.functions.get"; "cloudfunctions.functions.get";
            "cloudfunctions.operations.list"]))).
  intros p [<- | [<- | [<- | []]]]; vm_compute; tauto.
Defined.

(** ** Entry names on a host with another separator *)

Lemma occurs_slash_path c names :
  Ascii.eqb "/" c = false ->
  Forall (fun k => occurs c k = false) names ->
  occurs c (slash_path names) = false.
Proof.
  intros Hc. unfold slash_path.
  induction 1 as [| k r Hk Hr IH]; [reflexivity |].
  destruct r as [| k' r']; [exact Hk |].
  change (occurs c (k ++ String "/" (String.concat "/" (k' :: r'))) = false).
  rewrite occurs_append, Hk. cbn [occurs orb]. rewrite Hc. exact IH.
Qed.

(** X4.  On a host whose path separator is the backslash, no entry
    name of the archive contains a backslash, whatever happens during
    the run: relative paths are written with forward slashes. *)
Theorem entry_names_have_no_backslash E dirPath xlsxPath listable listing s z e :
  Separator E = "\"%char ->
  source E = Some (Dir listable listing) ->
  create_fails E = false ->
  well_formed (Separator E) (Dir listable listing) = true ->
  output (snd (createXLSXFromDir E dirPath xlsxPath s)) = Some z ->
  In e (entries z) ->
  occurs "\" (Name e) = false.
Proof.
  intros Hsep Hsrc Hcreate Hwf Hout Hin.
  destruct (run_on_directory E dirPath xlsxPath listable listing s Hsrc Hcreate)
    as (first & added & Hz & _ & _ & Hfirst & _ & _ & Hadded & _).
  cbv zeta in Hz. rewrite Hz in Hout. injection Hout as <-. simpl in Hin.
  apply in_app_or in Hin as [Hin | Hin].
  - destruct Hfirst as [-> | [data ->]]; [contradiction |].
    destruct Hin as [<- | []]. reflexivity.
  - rewrite Forall_forall in Hadded.
    destruct (Hadded e Hin) as (_ & f & Hf & _ & Hname).
    rewrite Hname, (rel_names_files _ _ _ _ Hwf Hf).
    apply occurs_slash_path; [reflexivity |].
    rewrite <- Hsep. eapply files_of_names; eauto.
Qed.

Lemma entry_names_have_no_backslash_witness :
  occurs "\" (Name (Entry "a/c.txt" Deflate [x63; x63])) = false.
Proof.
  eapply (entry_names_have_no_backslash (host "\" (Some loose_files)) "in" "out.xlsx"
            true _ empty_state _ (Entry "a/c.txt" Deflate [x63; x63]));
    [reflexivity | reflexivity | reflexivity | reflexivity
    | vm_compute; reflexivity | vm_compute; auto].
Defined.

(** ** The success line *)

Lemma printed_refl P s : printed P s s.
Proof. exists []. now rewrite app_nil_r. Qed.

Lemma printed_trans P s1 s2 s3 : printed P s1 s2 -> printed P s2 s3 -> printed P s1 s3.
Proof.
  intros (l1 & H1 & F1) (l2 & H2 & F2). exists (l1 ++ l2).
  split; [now rewrite H2, H1, app_assoc | now apply Forall_app].
Qed.

Lemma walkFn_prints E dirPath path info err s :
  printed is_adding s (snd (walkFn E dirPath path info err s)).
Proof.
  destruct s as [[[es fin] |] op df so].
  all: unfold walkFn, printed.
  all: run_go.
  all: repeat (split_match; simpl in * ).
  all: first [ solve [exists []; simpl; rewrite app_nil_r; auto]
             | solve [eexists [_]; simpl; split; [reflexivity | repeat constructor]] ].
Qed.

Lemma run_all_prints P l :
  Forall (fun v : string * (state -> walkres * state) =>
            forall s, printed P s (snd (snd v s))) l ->
  forall s, printed P s (snd (run_all l s)).
Proof.
  induction 1 as [| [k v] r Hv _ IH]; intros s; simpl; [apply printed_refl |].
  specialize (Hv s). simpl in Hv.
  destruct (v s) as [[| e |] s1]; simpl in *; auto.
  eapply printed_trans; [exact Hv | apply IH].
Qed.

(** The walk prints nothing but the lines that announce an entry. *)
Lemma walk_prints E dirPath n :
  forall path s, printed is_adding s (snd (walk (walkFn E dirPath) n path s)).
Proof.
  induction n as [data flt | | listable listing IH] using node_ind'; intros path s.
  - unfold walk. apply walkFn_prints.
  - unfold walk. apply walkFn_prints.
  - rewrite walk_Dir. cbv zeta.
    pose proof (walkFn_prints E dirPath path (Some (Dir listable listing))
                  (if listable then None else Some (WalkIO path)) s) as H0.
    destruct (walkFn E dirPath path (Some (Dir listable listing)) _ s)
      as [[| e |] s1]; cbn [snd] in *; try (destruct listable; exact H0).
    destruct listable; [| exact H0].
    eapply printed_trans; [exact H0 |].
    apply run_all_prints. unfold visits. rewrite Forall_map, Forall_forall.
    intros [k c] Hin s'. cbn [fst snd].
    apply (proj1 (in_sort_by_name _ _)) in Hin.
    rewrite Forall_forall in IH. apply (IH (k, c) Hin).
Qed.

Lemma add_mimetype_prints E mimetypePath s :
  printed (fun m => ~ is_success m) s (snd (add_mimetype E mimetypePath s)).
Proof.
  destruct s as [[[es fin] |] op df so].
  all: unfold add_mimetype, printed.
  all: run_go.
  all: repeat (split_match; simpl in * ).
  all: eexists [_]; simpl; split; [reflexivity | repeat constructor; auto].
Qed.

Lemma finish_stdout s0 s : stdout (finish s0 s) = stdout s.
Proof.
  unfold finish, set_deferred. cbn [stdout].
  generalize (deferred s). intros l. revert s.
  induction l as [| h r IH]; intros s; simpl; [reflexivity |].
  rewrite IH. unfold close, set_opened, set_output.
  destruct h, (output s); simpl; try reflexivity.
  destruct (is_open ZipWriter s && is_open OutputFile s); reflexivity.
Qed.

(** X5.  The success line is printed exactly when the function
    returns nil, and then it is the last line and names the last
    element of the output path: a run that fails or panics never
    prints it. *)
Theorem success_line_iff_nil E dirPath xlsxPath s :
  Forall (fun m => ~ is_success m) (stdout s) ->
  let r := fst (createXLSXFromDir E dirPath xlsxPath s) in
  let s' := snd (createXLSXFromDir E dirPath xlsxPath s) in
  (r = Nil ->
   exists lines,
     stdout s'
     = stdout s ++ lines ++ [Success (Filepath.BaseString (Separator E) xlsxPath)]
     /\ Forall (fun m => ~ is_success m) lines)
  /\ (r <> Nil -> Forall (fun m => ~ is_success m) (stdout s')).
Proof.
  intros Hbefore. cbv zeta.
  assert (Hadd : forall m, is_adding m -> ~ is_success m).
  { intros [] H; simpl in *; auto. }
  destruct (source E) as [[data flt | listable listing |] |] eqn:Hsrc;
    try (rewrite createXLSXFromDir_no_directory, Hsrc; simpl;
         split; [discriminate | intros _; exact Hbefore]).
  destruct (create_fails E) eqn:Hcreate.
  { rewrite (createXLSXFromDir_create_fails _ _ _ _ _ _ Hsrc Hcreate). simpl.
    split; [discriminate | intros _].
    apply Forall_app. split; [exact Hbefore |].
    unfold greeting. destruct (child _ listing); repeat constructor; auto. }
  rewrite (createXLSXFromDir_Dir _ _ _ _ _ _ Hsrc Hcreate).
  set (s1 := started dirPath listing s).
  assert (H1 : printed (fun m => ~ is_success m) s s1).
  { exists (greeting dirPath listing). split; [reflexivity |].
    unfold greeting. destruct (child _ listing); repeat constructor; auto. }
  pose proof (add_mimetype_prints E (Filepath.Path dirPath ["mimetype"]) s1) as H2.
  pose proof (add_mimetype_result E (Filepath.Path dirPath ["mimetype"]) s1) as Hres.
  destruct (add_mimetype _ _ s1) as [[u | r] s2]; cbn [fst snd] in *.
  - pose proof (walk_prints E dirPath (Dir listable listing)
                  (Filepath.Path dirPath []) s2) as H3.
    rewrite (Walk_source _ _ _ _ Hsrc).
    destruct (walk _ _ _ s2) as [[| e |] s3]; cbn [fst snd] in *.
    + split; [intros _ | congruence].
      destruct (printed_trans _ _ _ _ H1 H2) as (l12 & E12 & F12).
      destruct H3 as (l3 & E3 & F3).
      exists (l12 ++ l3). rewrite finish_stdout. simpl.
      split.
      * now rewrite E3, E12, <- !app_assoc.
      * apply Forall_app. split; [exact F12 |].
        eapply Forall_impl; [| exact F3]. exact Hadd.
    + split; [discriminate | intros _]. rewrite finish_stdout.
      destruct (printed_trans _ _ _ _ H1 H2) as (l12 & E12 & F12).
      destruct H3 as (l3 & E3 & F3). rewrite E3, E12.
      repeat (apply Forall_app; split); auto.
      eapply Forall_impl; [| exact F3]. exact Hadd.
    + split; [discriminate | intros _]. rewrite finish_stdout.
      destruct (printed_trans _ _ _ _ H1 H2) as (l12 & E12 & F12).
      destruct H3 as (l3 & E3 & F3). rewrite E3, E12.
      repeat (apply Forall_app; split); auto.
      eapply Forall_impl; [| exact F3]. exact Hadd.
  - split.
    + intros ->. destruct Hres as [H | [H | H]]; discriminate.
    + intros _. rewrite finish_stdout.
      destruct (printed_trans _ _ _ _ H1 H2) as (l12 & E12 & F12).
      rewrite E12. apply Forall_app. auto.
Qed.

Lemma success_line_iff_nil_witness :
  Forall (fun m => ~ is_success m)
    (stdout (snd (createXLSXFromDir (host "/" (Some unreadable_file)) "in" "out.xlsx"
                    empty_state))).
Proof.
  apply (proj2 (success_line_iff_nil (host "/" (Some unreadable_file)) "in" "out.xlsx"
                  empty_state (Forall_nil _))).
  vm_compute. discriminate.
Defined.
